(** * bevy_navigator: a shallow embedding of [navigation.rs] and [traveler.rs]

    Modelling conventions.
    - Ids are [u32], held as [Z].  [u32] arithmetic is written out with its
      wrap-around ([u32_add], [u32_sub]); this is what a release build does.
      A debug build panics at the same places instead of wrapping.
    - [f32] is left abstract: the class [F32] lists the float operations the
      code performs (the [Vec3] helpers of [bevy_math] are built on top of
      them).  Every generic theorem therefore holds for IEEE single precision
      as well as for any other float semantics.  Module [QFloat] gives an
      exact rational instance used for concrete runs; on the concrete inputs
      used below every intermediate value is exactly representable in [f32].
    - A [HashSet<u32>] of connections is a duplicate-free list; its order is
      the (unspecified) iteration order of the set, so theorems that
      quantify over graphs quantify over every iteration order.
    - The [BinaryHeap] pop of [find_path] is a parameter [pop] of the search:
      Rust orders [PathNode]s by [f] only, so ties are broken in an order the
      code does not fix.  Theorems assume only that [pop] removes one element
      of the heap ([pop_ok]); [min_pop] is a concrete min-[f] instance.
    - A call that panics or does not terminate yields [None] in the outer
      [option] of [find_path]; the search loop is run with fuel.
    - A [with_capacity] request whose capacity overflows hashbrown's
      bucket computation panics; whether a smaller one can be served
      depends on the allocator, a parameter [alloc] of [find_path].  Other
      allocations (the growth of a collection) are assumed to succeed. *)

From Stdlib Require Import ZArith List Permutation Lia.
From Stdlib Require Import QArith Qround.
From stdpp Require Import base gmap list.
Import ListNotations.

Open Scope Z_scope.

Definition u32_max : Z := 4294967295.
Definition u32_add (x y : Z) : Z := (x + y) mod 4294967296.
Definition u32_sub (x y : Z) : Z := (x - y) mod 4294967296.
Definition usize_max : Z := 18446744073709551615.

(** ** f32 and [bevy_math::Vec3] *)

Class F32 (F : Type) := {
  f_add : F -> F -> F;
  f_sub : F -> F -> F;
  f_mul : F -> F -> F;
  f_div : F -> F -> F;
  f_sqrt : F -> F;
  f_recip : F -> F;            (* [f32::recip], i.e. [1.0 / x] *)
  f_powi : F -> Z -> F;        (* [f32::powi] *)
  f_le : F -> F -> bool;       (* [<=], false when a NaN is involved *)
  f_100 : F;                   (* the literal [100.0] *)
  f_0_001 : F;                 (* the literal [0.001_f32] *)
  f_as_u32 : F -> Z;           (* the cast [x as u32] *)
  f_as_u32_range : forall x, 0 <= f_as_u32 x <= u32_max;
  f_2 : F;                     (* the literal [2.0] *)
  f_as_usize : F -> Z;         (* the cast [x as usize] (64-bit target) *)
  f_as_usize_range : forall x, 0 <= f_as_usize x <= usize_max;
  (** The distance of a point to itself, doubled and cast to [usize], is 0:
      in IEEE arithmetic [x - x] is [+0.0] for a finite [x] and NaN
      otherwise; [+0.0] stays [+0.0] through products, sums, [sqrt] and
      [* 2.0], NaN stays NaN, and both cast to [0]. *)
  f_cap_self : forall x y z,
    let dx := f_sub x x in let dy := f_sub y y in let dz := f_sub z z in
    f_as_usize (f_mul (f_sqrt (f_add (f_add (f_mul dx dx) (f_mul dy dy)) (f_mul dz dz))) f_2) = 0
}.

Record Vec3 (F : Type) := mkVec3 { vx : F; vy : F; vz : F }.
Arguments mkVec3 {F} _ _ _.
Arguments vx {F} _.
Arguments vy {F} _.
Arguments vz {F} _.

Section Vec3Ops.
Context {F : Type} `{!F32 F}.

Definition vsub (a b : Vec3 F) : Vec3 F :=
  mkVec3 (f_sub (vx a) (vx b)) (f_sub (vy a) (vy b)) (f_sub (vz a) (vz b)).
Definition vadd (a b : Vec3 F) : Vec3 F :=
  mkVec3 (f_add (vx a) (vx b)) (f_add (vy a) (vy b)) (f_add (vz a) (vz b)).
(** [Vec3 * f32] *)
Definition vscale (a : Vec3 F) (s : F) : Vec3 F :=
  mkVec3 (f_mul (vx a) s) (f_mul (vy a) s) (f_mul (vz a) s).
Definition dot (a b : Vec3 F) : F :=
  f_add (f_add (f_mul (vx a) (vx b)) (f_mul (vy a) (vy b))) (f_mul (vz a) (vz b)).
Definition length_squared (a : Vec3 F) : F := dot a a.
Definition vec_length (a : Vec3 F) : F := f_sqrt (length_squared a).
Definition length_recip (a : Vec3 F) : F := f_recip (vec_length a).
Definition normalize (a : Vec3 F) : Vec3 F := vscale a (length_recip a).
Definition distance_squared (a b : Vec3 F) : F := length_squared (vsub a b).
Definition distance (a b : Vec3 F) : F := vec_length (vsub a b).
End Vec3Ops.

(** ** [NavPoint] and [NavGraph] *)

Record NavPoint (F : Type) := mkNavPoint {
  id : Z;
  location : Vec3 F;
  speed_modifier : F;
  connections : list Z;        (* HashSet<u32>, in iteration order *)
  max_occupancy : Z;
  current_occupancy : Z
}.
Arguments mkNavPoint {F} _ _ _ _ _ _.
Arguments id {F} _.
Arguments location {F} _.
Arguments speed_modifier {F} _.
Arguments connections {F} _.
Arguments max_occupancy {F} _.
Arguments current_occupancy {F} _.

Record NavGraph (F : Type) := mkNavGraph {
  points : gmap Z (NavPoint F);
  highest_id : Z
}.
Arguments mkNavGraph {F} _ _.
Arguments points {F} _.
Arguments highest_id {F} _.

(** [HashSet::insert] and [HashSet::remove] on the list representation. *)
Definition set_insert (x : Z) (s : list Z) : list Z :=
  if decide (x ∈ s) then s else s ++ [x].
Definition set_remove (x : Z) (s : list Z) : list Z :=
  filter (fun y => y ≠ x) s.

Section Navigation.
Context {F : Type} `{!F32 F}.

Definition with_connections (p : NavPoint F) (c : list Z) : NavPoint F :=
  mkNavPoint (id p) (location p) (speed_modifier p) c
             (max_occupancy p) (current_occupancy p).
Definition with_occupancy (p : NavPoint F) (n : Z) : NavPoint F :=
  mkNavPoint (id p) (location p) (speed_modifier p) (connections p)
             (max_occupancy p) n.

(** [NavPoint::new] *)
Definition NavPoint_new (i : Z) (loc : Vec3 F) (sm : F) (maxo : Z) : NavPoint F :=
  mkNavPoint i loc sm [] maxo 0.

(** [NavPoint::can_occupy] *)
Definition np_can_occupy (p : NavPoint F) : bool :=
  current_occupancy p <? max_occupancy p.

(** [NavPoint::occupy] *)
Definition np_occupy (p : NavPoint F) : bool * NavPoint F :=
  if np_can_occupy p then (true, with_occupancy p (current_occupancy p + 1))
  else (false, p).

(** [NavPoint::unoccupy]: [(self.current_occupancy - 1).max(0)] on [u32]. *)
Definition np_unoccupy (p : NavPoint F) : NavPoint F :=
  with_occupancy p (Z.max (u32_sub (current_occupancy p) 1) 0).

(** [HashMap::entry(k).and_modify(f)] *)
Definition and_modify (k : Z) (f : NavPoint F -> NavPoint F)
    (m : gmap Z (NavPoint F)) : gmap Z (NavPoint F) :=
  match m !! k with
  | Some p => <[k := f p]> m
  | None => m
  end.

Definition with_points (g : NavGraph F) (m : gmap Z (NavPoint F)) : NavGraph F :=
  mkNavGraph m (highest_id g).

(** [NavGraph::new] *)
Definition NavGraph_new : NavGraph F := mkNavGraph ∅ 0.

(** [NavGraph::add_nav_point] *)
Definition add_nav_point (g : NavGraph F) (p : NavPoint F) : NavGraph F :=
  let m := fold_left
             (fun m c => and_modify c (fun b =>
                with_connections b (set_insert (id p) (connections b))) m)
             (connections p) (points g) in
  let hi := if id p >? highest_id g then id p else highest_id g in
  mkNavGraph (<[id p := p]> m) hi.

(** [NavGraph::has_node] *)
Definition has_node (g : NavGraph F) (i : Z) : bool :=
  bool_decide (is_Some (points g !! i)).

(** [NavGraph::connect_points] *)
Definition connect_points (g : NavGraph F) (a b : Z) : NavGraph F :=
  if negb (has_node g a) || negb (has_node g b) then g else
  let m1 := and_modify a (fun p => with_connections p (set_insert b (connections p))) (points g) in
  let m2 := and_modify b (fun p => with_connections p (set_insert a (connections p))) m1 in
  with_points g m2.

(** [NavGraph::remove_point] *)
Definition remove_point (g : NavGraph F) (i : Z) : NavGraph F :=
  match points g !! i with
  | None => g
  | Some p =>
      let m := fold_left
                 (fun m c => and_modify c (fun b =>
                    with_connections b (set_remove (id p) (connections b))) m)
                 (connections p) (delete i (points g)) in
      with_points g m
  end.

(** [NavGraph::can_occupy] *)
Definition can_occupy (g : NavGraph F) (i : Z) : bool :=
  match points g !! i with Some p => np_can_occupy p | None => false end.

(** [NavGraph::occupy]: the closure's result is returned. *)
Definition occupy (g : NavGraph F) (i : Z) : bool * NavGraph F :=
  match points g !! i with
  | Some p => let (r, p') := np_occupy p in (r, with_points g (<[i := p']> (points g)))
  | None => (false, g)
  end.

(** [NavGraph::unoccupy] *)
Definition unoccupy (g : NavGraph F) (i : Z) : NavGraph F :=
  with_points g (and_modify i np_unoccupy (points g)).

(** [NavGraph::h_func] *)
Definition h_func (g : NavGraph F) (a b : Z) : Z :=
  match points g !! a, points g !! b with
  | Some an, Some bn =>
      f_as_u32 (f_mul (f_div (distance_squared (location an) (location bn))
                             (speed_modifier bn)) f_100)
  | _, _ => u32_max
  end.
End Navigation.

(** ** [NavGraph::find_path] *)

Record PathNode := mkPathNode { pn_id : Z; pn_f : Z }.

(** The working collections of the search.  [f_score] is written but never
    read by the source; it is kept so that the state mirrors the code. *)
Record SearchState := mkSearchState {
  open_set : list PathNode;        (* BinaryHeap<Reverse<PathNode>> *)
  search_ids : gset Z;
  came_from : gmap Z Z;
  g_score : gmap Z Z;
  f_score : gmap Z Z
}.

(** A heap pop is acceptable when it removes one element of the heap and
    answers [None] only on an empty heap. *)
Definition pop_ok (pop : list PathNode -> option (PathNode * list PathNode)) : Prop :=
  forall l, match pop l with
            | None => l = []
            | Some (x, l') => Permutation l (x :: l')
            end.

Section FindPath.
Context {F : Type} `{!F32 F}.
Variable pop : list PathNode -> option (PathNode * list PathNode).

(** One iteration of [for neighbor_id in &self.points[&current.id].connections]. *)
Definition visit (g : NavGraph F) (b cur : Z) (st : SearchState) (nid : Z)
    : option SearchState :=
  match points g !! nid with
  | None => None                                (* self.points[neighbor_id] panics *)
  | Some nb =>
    if negb (np_can_occupy nb) then Some st else
    match g_score st !! cur with
    | None => None                              (* g_score[&current.id] panics *)
    | Some gcur =>
      let tentative := u32_add gcur (h_func g cur (id nb)) in
      let gn := default u32_max (g_score st !! nid) in
      let gs := <[nid := gn]> (g_score st) in   (* entry().or_insert(u32::MAX) *)
      if tentative <? gn then
        let cf := <[nid := cur]> (came_from st) in
        let cur_f := u32_add tentative (h_func g nid b) in
        let gs' := <[nid := tentative]> gs in
        let fs := <[nid := cur_f]> (f_score st) in
        if bool_decide (nid ∈ search_ids st) then
          Some (mkSearchState (open_set st) (search_ids st) cf gs' fs)
        else
          Some (mkSearchState (mkPathNode nid cur_f :: open_set st)
                              ({[nid]} ∪ search_ids st) cf gs' fs)
      else Some (mkSearchState (open_set st) (search_ids st) (came_from st) gs (f_score st))
    end
  end.

Fixpoint visit_all (g : NavGraph F) (b cur : Z) (st : SearchState) (l : list Z)
    : option SearchState :=
  match l with
  | [] => Some st
  | n :: l' =>
      match visit g b cur st n with
      | Some st' => visit_all g b cur st' l'
      | None => None
      end
  end.

(** The path reconstruction [while prev != a { push_front(prev); prev = came_from[&prev] }].
    Its fuel is [size came_from + 1]: a walk that looks up more keys than
    the map holds has met a key twice and loops forever in the source. *)
Fixpoint walk (fuel : nat) (a : Z) (cf : gmap Z Z) (prev : Z) (acc : list Z)
    : option (list Z) :=
  match fuel with
  | O => None
  | S fuel' =>
      if bool_decide (prev = a) then Some acc else
      match cf !! prev with
      | None => None                            (* came_from[&prev] panics *)
      | Some p => walk fuel' a cf p (prev :: acc)
      end
  end.

(** [while let Some(Reverse(current)) = open_set.pop() { ... } None] *)
Fixpoint search (fuel : nat) (g : NavGraph F) (a b : Z) (st : SearchState)
    : option (option (list Z)) :=
  match fuel with
  | O => None
  | S fuel' =>
    match pop (open_set st) with
    | None => Some None
    | Some (cur, rest) =>
      if bool_decide (pn_id cur = b) then
        match walk (S (size (came_from st))) a (came_from st) (pn_id cur) [] with
        | Some p => Some (Some p)
        | None => None
        end
      else
        let st1 := mkSearchState rest (search_ids st ∖ {[pn_id cur]})
                                 (came_from st) (g_score st) (f_score st) in
        match points g !! pn_id cur with
        | None => search fuel' g a b st1         (* continue *)
        | Some p =>
            match visit_all g b (pn_id cur) st1 (connections p) with
            | Some st2 => search fuel' g a b st2
            | None => None
            end
        end
    end
  end.

Definition start_state (g : NavGraph F) (a b : Z) : SearchState :=
  let start_h := h_func g a b in
  mkSearchState [mkPathNode a start_h] {[a]} ∅ {[a := 0]} {[a := start_h]}.

(** [cap_guess = (a_node.location().distance(b_node.location()) * 2.0) as usize] *)
Definition cap_guess (an bn : NavPoint F) : Z :=
  f_as_usize (f_mul (distance (location an) (location bn)) f_2).

(** Whether the [with_capacity(cap)] calls return.  A capacity of [0] never
    allocates.  Otherwise the first call, [HashSet::with_capacity], computes
    [cap.checked_mul(8)] in hashbrown's [capacity_to_buckets] and panics
    ("Hash table capacity overflow") when it overflows.  Below that bound the
    outcome depends on the allocator [alloc], which refuses what it cannot
    provide (a failed allocation aborts). *)
Variable alloc : Z -> bool.
Definition with_capacity (cap : Z) : bool :=
  (cap =? 0) || ((cap <=? usize_max / 8) && alloc cap).

(** [find_path(a, b)].  The five collections are created with capacity
    [cap_guess] before the search, and the [VecDeque] of the path with the
    same capacity when [b] is popped, before the path is rebuilt. *)
Definition find_path (fuel : nat) (g : NavGraph F) (a b : Z) : option (option (list Z)) :=
  match points g !! a, points g !! b with
  | Some an, Some bn =>
      let cap := cap_guess an bn in
      if with_capacity cap then
        match search fuel g a b (start_state g a b) with
        | Some (Some p) => if with_capacity cap then Some (Some p) else None
        | r => r
        end
      else None
  | _, _ => Some None
  end.

(** The capacity [find_path(a, b)] passes to [with_capacity]. *)
Definition cap_of (g : NavGraph F) (a b : Z) : Z :=
  match points g !! a, points g !! b with
  | Some an, Some bn => cap_guess an bn
  | _, _ => 0
  end.
End FindPath.

Lemma find_path_found {F : Type} `{!F32 F} pop alloc fuel (g : NavGraph F) a b p :
  find_path pop alloc fuel g a b = Some (Some p) ->
  exists pa pb, points g !! a = Some pa /\ points g !! b = Some pb /\
    search pop fuel g a b (start_state g a b) = Some (Some p).
Proof.
  unfold find_path. destruct (points g !! a) as [pa|], (points g !! b) as [pb|]; try done.
  destruct (with_capacity alloc (cap_guess pa pb)); [|done].
  destruct (search pop fuel g a b (start_state g a b)) as [[q|]|]; try done.
  intros [= <-]. eauto.
Qed.

(** A concrete heap pop: the first element of least [f]. *)
Fixpoint min_pop (l : list PathNode) : option (PathNode * list PathNode) :=
  match l with
  | [] => None
  | x :: l' =>
      match min_pop l' with
      | None => Some (x, [])
      | Some (y, r) => if pn_f y <? pn_f x then Some (y, x :: r) else Some (x, l')
      end
  end.

(** A concrete allocator: it serves [with_capacity] requests of at most [n]
    elements. *)
Definition alloc_upto (n cap : Z) : bool := cap <=? n.

(** ** [traveler.rs] *)

Inductive BlockedBehavior := Wait | Recompute.
Inductive DestinationBehavior (F : Type) := Exactly | WithinRadius (r : F).
Arguments Exactly {F}.
Arguments WithinRadius {F} _.
Inductive PathBehavior := Precompute | ProgressiveRecompute.

Record AutoTraveler (F : Type) := mkAutoTraveler {
  origin : Z;
  destination : Z;
  path : option (list Z);
  current_index : nat;              (* usize *)
  speed : F;
  blocked_behavior : BlockedBehavior;
  destination_behavior : DestinationBehavior F;
  path_behavior : PathBehavior
}.
Arguments mkAutoTraveler {F} _ _ _ _ _ _ _ _.
Arguments origin {F} _.
Arguments destination {F} _.
Arguments path {F} _.
Arguments current_index {F} _.
Arguments speed {F} _.
Arguments blocked_behavior {F} _.
Arguments destination_behavior {F} _.
Arguments path_behavior {F} _.

Record TravelerPosition := mkTravelerPosition {
  current_nav_point : Z;
  next_nav_point : option Z
}.

(** The [translation] of the entity's [Transform], the only part the
    driver reads or writes. *)
Record Transform (F : Type) := mkTransform { translation : Vec3 F }.
Arguments mkTransform {F} _.
Arguments translation {F} _.

(** What one tick leaves of a traveler: either its [AutoTraveler] is
    removed ([Retire]; position and transform untouched) or it keeps new
    component values. *)
Inductive Outcome (F : Type) :=
| Retire
| Keep (tr : AutoTraveler F) (tp : TravelerPosition) (tf : Transform F).
Arguments Retire {F}.
Arguments Keep {F} _ _ _.

Section Traveler.
Context {F : Type} `{!F32 F}.

Definition set_index (tr : AutoTraveler F) (i : nat) : AutoTraveler F :=
  mkAutoTraveler (origin tr) (destination tr) (path tr) i (speed tr)
                 (blocked_behavior tr) (destination_behavior tr) (path_behavior tr).
Definition set_path (tr : AutoTraveler F) (p : option (list Z)) : AutoTraveler F :=
  mkAutoTraveler (origin tr) (destination tr) p (current_index tr) (speed tr)
                 (blocked_behavior tr) (destination_behavior tr) (path_behavior tr).

(** [AutoTraveler::new] (with [AutoTraveler::default] for the rest). *)
Definition AutoTraveler_new (o d : Z) (s : F) : AutoTraveler F :=
  mkAutoTraveler o d None 0 s Recompute Exactly Precompute.

(** Modelled from the spec: [NavGraph::get_nav_point] is called by
    [traveler.rs] but its body is not among the sources.  The spec reads
    the location and speed modifier of the waypoint with the given id, so
    it is the lookup of that id in the graph. *)
Definition get_nav_point (g : NavGraph F) (i : Z) : option (NavPoint F) :=
  points g !! i.

(** [compute_initial_path] for one newly added traveler: [None] when
    [find_path] does not return; otherwise the traveler and, when a path
    was found, its new [TravelerPosition] (no position means [NoPath]). *)
Definition compute_initial_path (pop : list PathNode -> option (PathNode * list PathNode))
    (alloc : Z -> bool) (fuel : nat) (g : NavGraph F) (tr : AutoTraveler F)
    : option (AutoTraveler F * option TravelerPosition) :=
  match find_path pop alloc fuel g (origin tr) (destination tr) with
  | None => None
  | Some (Some p) => Some (set_path tr (Some p), Some (mkTravelerPosition (origin tr) None))
  | Some None => Some (tr, None)
  end.

(** The snap test [movement_len_squared >= dist_squared ||
    dist_squared <= 0.001_f32.powi(2)]. *)
Definition snaps (movement_len_squared dist_squared : F) : bool :=
  f_le dist_squared movement_len_squared || f_le dist_squared (f_powi f_0_001 2).

(** The displacement of one tick. *)
Definition movement (dt : F) (tr : AutoTraveler F) (from to : NavPoint F) : Vec3 F :=
  let direction := normalize (vsub (location to) (location from)) in
  vscale (vscale (vscale direction (speed tr)) (speed_modifier from)) dt.

(** The body of the loop of [move_travelers] for one traveler that is not
    paused; [dt] is [time.delta_seconds()]. *)
Definition move_traveler (dt : F) (g : NavGraph F) (tr : AutoTraveler F)
    (tp : TravelerPosition) (tf : Transform F) : NavGraph F * Outcome F :=
  match path tr with
  | None => (g, Keep tr tp tf)
  | Some p =>
    if (length p <=? S (current_index tr))%nat then (g, Retire) else
    let nxt := nth (S (current_index tr)) p 0 in   (* in range: checked above *)
    let reserved :=
      match next_nav_point tp with
      | None =>
          let (ok, g1) := occupy g nxt in
          if ok then Some (g1, mkTravelerPosition (current_nav_point tp) (Some nxt))
          else None                                  (* "Travel blocked": continue *)
      | Some _ => Some (g, tp)
      end in
    match reserved with
    | None => (g, Keep tr tp tf)
    | Some (g1, tp1) =>
      match get_nav_point g1 (current_nav_point tp1),
            get_nav_point g1 (default 0 (next_nav_point tp1)) with
      | Some from, Some to =>
          let mv := movement dt tr from to in
          let mls := length_squared mv in
          let ds := distance_squared (translation tf) (location to) in
          if snaps mls ds then
            (unoccupy g1 (current_nav_point tp1),
             Keep (set_index tr (S (current_index tr)))
                  (mkTravelerPosition nxt None)
                  (mkTransform (location to)))
          else (g1, Keep tr tp1 (mkTransform (vadd (translation tf) mv)))
      | _, _ => (g1, Keep tr tp1 tf)
      end
    end
  end.

(** [move_travelers]: the travelers in query order, each with a flag for
    [TravelingPaused]; the graph is threaded through them in that order. *)
Fixpoint move_travelers (dt : F) (g : NavGraph F)
    (ts : list (bool * AutoTraveler F * TravelerPosition * Transform F))
    : NavGraph F * list (Outcome F) :=
  match ts with
  | [] => (g, [])
  | (paused, tr, tp, tf) :: ts' =>
      if paused then
        let (g', os) := move_travelers dt g ts' in (g', Keep tr tp tf :: os)
      else
        let (g1, o) := move_traveler dt g tr tp tf in
        let (g', os) := move_travelers dt g1 ts' in (g', o :: os)
  end.
End Traveler.

(** ** An exact rational instance of [F32], for concrete runs *)

Module QFloat.
(** A rational approximation of the square root, to 6 decimals. *)
Definition q_sqrt (q : Q) : Q :=
  Qmake (Z.sqrt (Qnum q * Zpos (Qden q) * 10 ^ 12)) (Qden q * 1000000).

Definition q_as_u32 (q : Q) : Z := Z.max 0 (Z.min u32_max (Qfloor q)).

Lemma q_as_u32_range q : 0 <= q_as_u32 q <= u32_max.
Proof. unfold q_as_u32, u32_max. lia. Qed.

Definition q_as_usize (q : Q) : Z := Z.max 0 (Z.min usize_max (Qfloor q)).

Lemma q_as_usize_range q : 0 <= q_as_usize q <= usize_max.
Proof. unfold q_as_usize, usize_max. lia. Qed.

Lemma q_cap_self x y z :
  let dx := Qminus x x in let dy := Qminus y y in let dz := Qminus z z in
  q_as_usize (Qmult (q_sqrt (Qplus (Qplus (Qmult dx dx) (Qmult dy dy)) (Qmult dz dz)))
                    (inject_Z 2)) = 0.
Proof.
  assert (Hsub : forall w, Qnum (w - w) = 0) by (intros [n d]; simpl; ring).
  assert (Hmul : forall u v, Qnum u = 0 -> Qnum (u * v) = 0) by (intros [n d] v; simpl; intros ->; done).
  assert (Hadd : forall u v, Qnum u = 0 -> Qnum v = 0 -> Qnum (u + v) = 0)
    by (intros [n d] [m e]; simpl; intros -> ->; done).
  assert (Hsq : forall u, Qnum u = 0 -> Qnum (q_sqrt u) = 0)
    by (intros [n d]; unfold q_sqrt; simpl; intros ->; done).
  intros dx dy dz.
  set (w := Qmult (q_sqrt (Qplus (Qplus (Qmult dx dx) (Qmult dy dy)) (Qmult dz dz))) (inject_Z 2)).
  assert (H0 : Qnum w = 0).
  { apply Hmul, Hsq. apply Hadd; [apply Hadd|]; apply Hmul, Hsub. }
  unfold q_as_usize. destruct w as [n d]. simpl in H0. subst n. unfold Qfloor. rewrite Z.div_0_l by lia. unfold usize_max. lia.
Qed.

#[global] Instance QF32 : F32 Q := {|
  f_add := Qplus; f_sub := Qminus; f_mul := Qmult; f_div := Qdiv;
  f_sqrt := q_sqrt; f_recip := Qinv; f_powi := Qpower;
  f_le := Qle_bool;
  f_100 := inject_Z 100; f_0_001 := Qmake 1 1000;
  f_as_u32 := q_as_u32; f_as_u32_range := q_as_u32_range;
  f_2 := inject_Z 2; f_as_usize := q_as_usize; f_as_usize_range := q_as_usize_range;
  f_cap_self := q_cap_self
|}.

Definition pt (x y z : Z) : Vec3 Q := mkVec3 (inject_Z x) (inject_Z y) (inject_Z z).

(** A waypoint of speed modifier 1 and capacity 1, as in the tests. *)
Definition np (i x y z : Z) : NavPoint Q := NavPoint_new i (pt x y z) (inject_Z 1) 1.
End QFloat.
Import QFloat.

(** The graph of [test_occupancy] (the diamond of the spec). *)
Definition diamond : NavGraph Q :=
  let g := fold_left add_nav_point [np 1 0 0 0; np 2 0 1 0; np 3 1 1 0; np 4 0 2 0] NavGraph_new in
  fold_left (fun g '(a, b) => connect_points g a b) [(1, 2); (1, 3); (2, 4); (3, 4)] g.

(** ** Graph properties and sequences of graph operations *)

Section GraphProps.
Context {F : Type} `{!F32 F}.

(** Connectivity is symmetric among the waypoints of the graph. *)
Definition symmetric (g : NavGraph F) : Prop :=
  forall a b pa pb, points g !! a = Some pa -> points g !! b = Some pb ->
    (b ∈ connections pa <-> a ∈ connections pb).

(** Every connection names a waypoint of the graph. *)
Definition closed (g : NavGraph F) : Prop :=
  forall a pa c, points g !! a = Some pa -> c ∈ connections pa -> is_Some (points g !! c).

(** Every waypoint is stored under its own id. *)
Definition keyed_by_id (g : NavGraph F) : Prop :=
  forall k p, points g !! k = Some p -> id p = k.

Definition graph_wf (g : NavGraph F) : Prop :=
  keyed_by_id g /\ closed g /\ symmetric g.

(** The mutating calls of the graph's connectivity. *)
Inductive GraphOp :=
| OpAdd (p : NavPoint F)
| OpConnect (a b : Z)
| OpRemove (i : Z).

Definition apply_op (g : NavGraph F) (op : GraphOp) : NavGraph F :=
  match op with
  | OpAdd p => add_nav_point g p
  | OpConnect a b => connect_points g a b
  | OpRemove i => remove_point g i
  end.

Definition run_ops (g : NavGraph F) (ops : list GraphOp) : NavGraph F :=
  fold_left apply_op ops g.

(** An [add_nav_point] of an id not yet in the graph whose declared
    connections all name waypoints already present. *)
Definition fresh_add (g : NavGraph F) (op : GraphOp) : Prop :=
  match op with
  | OpAdd p => points g !! id p = None /\ Forall (fun c => is_Some (points g !! c)) (connections p)
  | _ => True
  end.

Fixpoint fresh_adds (g : NavGraph F) (ops : list GraphOp) : Prop :=
  match ops with
  | [] => True
  | op :: ops' => fresh_add g op /\ fresh_adds (apply_op g op) ops'
  end.

(** A straight chain [c]: the graph's waypoint [c_i] is stored under its
    id and connected exactly to [c_(i-1)] and [c_(i+1)]; all have
    headroom. *)
Definition chain_nbrs (c : list Z) (i : nat) : list Z :=
  match i with O => [] | S i' => [nth i' c 0] end ++
  (if (S i <? length c)%nat then [nth (S i) c 0] else []).

Definition is_chain (g : NavGraph F) (c : list Z) : Prop :=
  (2 <= length c)%nat /\ NoDup c /\
  forall i, (i < length c)%nat -> exists p,
    points g !! nth i c 0 = Some p /\ id p = nth i c 0 /\
    Permutation (connections p) (chain_nbrs c i) /\ np_can_occupy p = true.

(** Cost of the chain's first [k] edges, as [find_path] adds them. *)
Fixpoint chain_cost (g : NavGraph F) (c : list Z) (k : nat) : Z :=
  match k with
  | O => 0
  | S k' => chain_cost g c k' + h_func g (nth k' c 0) (nth k c 0)
  end.


(** A traveler's reservation, when held, is the next entry of its path. *)
Definition traveler_inv (tr : AutoTraveler F) (tp : TravelerPosition) : Prop :=
  forall p n, path tr = Some p -> next_nav_point tp = Some n ->
    (S (current_index tr) < length p)%nat /\ nth (S (current_index tr)) p 0 = n.
End GraphProps.
Arguments GraphOp F : clear implicits.

(** * Theorems *)

(** ** Occupancy *)

Section Occupancy.
Context {F : Type} `{!F32 F}.

Lemma with_points_self (g : NavGraph F) : with_points g (points g) = g.
Proof. by destruct g. Qed.

Lemma with_occupancy_same (p : NavPoint F) : with_occupancy p (current_occupancy p) = p.
Proof. by destruct p. Qed.

(** [unoccupy] of an id that is not in the graph changes nothing. *)
Lemma unoccupy_absent (g : NavGraph F) i : points g !! i = None -> unoccupy g i = g.
Proof. intros H. unfold unoccupy, and_modify. rewrite H. apply with_points_self. Qed.

Lemma occupy_has_node (g : NavGraph F) i j : has_node (snd (occupy g i)) j = has_node g j.
Proof.
  unfold occupy, has_node. destruct (points g !! i) as [p|] eqn:Hi; [|done].
  destruct (np_occupy p) as [r p']. simpl.
  destruct (decide (i = j)) as [->|Hne].
  - rewrite lookup_insert_eq, Hi. done.
  - rewrite lookup_insert_ne; done.
Qed.

(** C6. [occupy(id)] succeeds iff the waypoint exists and
    [current_occupancy < max_occupancy]; on success exactly that counter
    goes up by one; on a full waypoint and on an absent id it fails and
    the graph is unchanged (no entry is created). *)
Theorem occupy_spec (g : NavGraph F) (i : Z) :
  (fst (occupy g i) = true <->
     exists p, points g !! i = Some p /\ current_occupancy p < max_occupancy p)
  /\ (forall p, points g !! i = Some p -> current_occupancy p < max_occupancy p ->
        snd (occupy g i) = with_points g (<[i := with_occupancy p (current_occupancy p + 1)]> (points g)))
  /\ (forall p, points g !! i = Some p -> max_occupancy p <= current_occupancy p ->
        occupy g i = (false, g))
  /\ (points g !! i = None -> occupy g i = (false, g)).
Proof.
  unfold occupy, np_occupy, np_can_occupy.
  split; [|split; [|split]].
  - destruct (points g !! i) as [p|] eqn:Hi.
    + destruct (current_occupancy p <? max_occupancy p) eqn:Hlt; simpl.
      * apply Z.ltb_lt in Hlt. split; [eauto|done].
      * apply Z.ltb_ge in Hlt. split; [done|]. intros (p' & Hp' & Hlt').
        injection Hp' as ->. lia.
    + simpl. split; [done|]. intros (p' & Hp' & _). done.
  - intros p Hi Hlt. rewrite Hi. apply Z.ltb_lt in Hlt. rewrite Hlt. done.
  - intros p Hi Hge. rewrite Hi.
    assert (Hf : (current_occupancy p <? max_occupancy p) = false) by (apply Z.ltb_ge; lia).
    rewrite Hf. f_equal. rewrite insert_id; [apply with_points_self|done].
  - intros Hi. rewrite Hi. done.
Qed.
End Occupancy.

(** C2 (code_bug).  [unoccupy] on a waypoint whose occupancy is 0: the [u32]
    subtraction [0 - 1] wraps to [u32::MAX] (a debug build panics there),
    and [.max(0)] does not bring it back to 0. *)
Theorem unoccupy_at_zero_wraps :
  current_occupancy <$> (points diamond !! 1) = Some 0 /\
  current_occupancy <$> (points (unoccupy diamond 1) !! 1) = Some 4294967295.
Proof. split; vm_compute; reflexivity. Qed.

(** ** The heap *)

Lemma min_pop_ok : pop_ok min_pop.
Proof.
  intros l. induction l as [|x l IH]; simpl; [done|].
  destruct (min_pop l) as [[y r]|] eqn:Hm.
  - destruct (pn_f y <? pn_f x).
    + rewrite IH. apply perm_swap.
    + done.
  - subst l. done.
Qed.

Lemma pop_singleton pop x y l' :
  pop_ok pop -> pop [x] = Some (y, l') -> y = x /\ l' = [].
Proof.
  intros Hp Heq. specialize (Hp [x]). rewrite Heq in Hp.
  apply Permutation_length_1_inv in Hp. injection Hp as -> ->. done.
Qed.

Lemma pop_in pop l x l' :
  pop_ok pop -> pop l = Some (x, l') -> x ∈ l /\ forall y, y ∈ l' -> y ∈ l.
Proof.
  intros Hp Heq. specialize (Hp l). rewrite Heq in Hp. split.
  - rewrite Hp. left.
  - intros y Hy. rewrite Hp. by right.
Qed.

(** ** [find_path(a, a)] *)

Section SameEndpoint.
Context {F : Type} `{!F32 F}.

Lemma cap_guess_self (p : NavPoint F) : cap_guess p p = 0.
Proof.
  unfold cap_guess, distance, vec_length, length_squared, dot, vsub. simpl.
  apply f_cap_self.
Qed.

(** C5. For an id [a] of the graph, [find_path(a, a)] returns the empty
    path. *)
Theorem find_path_same_endpoint pop alloc (g : NavGraph F) (a : Z) (pa : NavPoint F) (fuel : nat)
    (Hpop : pop_ok pop) (Ha : points g !! a = Some pa) (Hfuel : (1 <= fuel)%nat) :
  find_path pop alloc fuel g a a = Some (Some []).
Proof.
  destruct fuel as [|fuel]; [lia|].
  unfold find_path. rewrite Ha, cap_guess_self. simpl.
  destruct (pop [mkPathNode a (h_func g a a)]) as [[x l']|] eqn:Hp.
  - apply pop_singleton in Hp as [-> ->]; [|done]. simpl.
    rewrite bool_decide_eq_true_2 by done. done.
  - specialize (Hpop [mkPathNode a (h_func g a a)]). rewrite Hp in Hpop. done.
Qed.
End SameEndpoint.

Lemma find_path_same_endpoint_witness :
  points diamond !! 1 = Some (with_connections (np 1 0 0 0) [2; 3]) /\
  find_path min_pop (alloc_upto 0) 1 diamond 1 1 = Some (Some []).
Proof.
  split; [vm_compute; reflexivity|].
  apply (find_path_same_endpoint min_pop (alloc_upto 0) diamond 1 (with_connections (np 1 0 0 0) [2; 3]) 1 min_pop_ok);
    [vm_compute; reflexivity | lia].
Defined.

(** ** The cost function *)

Section Cost.
Context {F : Type} `{!F32 F}.

Lemma h_func_range (g : NavGraph F) x y : 0 <= h_func g x y <= u32_max.
Proof.
  unfold h_func. destruct (points g !! x), (points g !! y);
    try apply f_as_u32_range; unfold u32_max; lia.
Qed.

Lemma u32_add_small x y : 0 <= x -> 0 <= y -> x + y < 4294967296 -> u32_add x y = x + y.
Proof. intros. unfold u32_add. apply Z.mod_small. lia. Qed.

Lemma u32_add_range x y : 0 <= u32_add x y < 4294967296.
Proof. unfold u32_add. apply Z.mod_pos_bound. lia. Qed.

(** C8. For waypoints [x] and [y] of the graph, [h_func x y] is
    [(distance_squared(loc x, loc y) / speed_modifier y * 100.0) as u32]:
    it divides by the destination's speed modifier.  The search uses it
    both ways: relaxing the edge [x -> y] sets [g(y) = g(x) + h(x, y)] and
    [f(y) = g(y) + h(y, b)], and the start node gets [f = h(a, b)]. *)
Theorem h_func_cost_and_heuristic (g : NavGraph F) (x y : Z) (px py : NavPoint F)
    (Hx : points g !! x = Some px) (Hy : points g !! y = Some py) (Hid : id py = y) :
  h_func g x y =
    f_as_u32 (f_mul (f_div (distance_squared (location px) (location py))
                           (speed_modifier py)) f_100)
  /\ (forall b st gcur, g_score st !! x = Some gcur -> np_can_occupy py = true ->
        u32_add gcur (h_func g x y) < default u32_max (g_score st !! y) ->
        exists st', visit g b x st y = Some st' /\
          came_from st' !! y = Some x /\
          g_score st' !! y = Some (u32_add gcur (h_func g x y)) /\
          f_score st' !! y = Some (u32_add (u32_add gcur (h_func g x y)) (h_func g y b)))
  /\ f_score (start_state g x y) !! x = Some (h_func g x y).
Proof.
  split; [|split].
  - unfold h_func. rewrite Hx, Hy. done.
  - intros b st gcur Hg Hocc Hlt. unfold visit. rewrite Hy, Hocc, Hg. simpl.
    rewrite Hid. apply Z.ltb_lt in Hlt. rewrite Hlt.
    case_bool_decide; eexists; (split; [reflexivity|]); simpl;
      rewrite !lookup_insert_eq; done.
  - simpl. apply lookup_insert_eq.
Qed.
End Cost.

(** Two waypoints with different speed modifiers: the cost is not
    symmetric. *)
Definition two_speeds : NavGraph Q :=
  let g := add_nav_point (add_nav_point NavGraph_new (np 1 0 0 0))
                         (NavPoint_new 2 (pt 1 0 0) (inject_Z 2) 1) in
  connect_points g 1 2.

Lemma h_func_cost_and_heuristic_witness :
  h_func two_speeds 1 2 = 50 /\ h_func two_speeds 2 1 = 100 /\
  h_func two_speeds 1 2 =
    f_as_u32 (f_mul (f_div (distance_squared (pt 0 0 0) (pt 1 0 0)) (inject_Z 2)) f_100).
Proof.
  split; [vm_compute; reflexivity|]. split; [vm_compute; reflexivity|].
  apply (h_func_cost_and_heuristic two_speeds 1 2
           (with_connections (np 1 0 0 0) [2])
           (with_connections (NavPoint_new 2 (pt 1 0 0) (inject_Z 2) 1) [1]));
    vm_compute; reflexivity.
Defined.

(** ** The traveler's tick *)

Section TravelerTick.
Context {F : Type} `{!F32 F}.

Ltac unfold_tick :=
  unfold move_traveler;
  repeat match goal with
  | |- context [match path ?tr with _ => _ end] => destruct (path tr) eqn:?
  | |- context [if (?x <=? ?y)%nat then _ else _] => destruct (x <=? y)%nat eqn:?
  | |- context [match next_nav_point ?tp with _ => _ end] => destruct (next_nav_point tp) eqn:?
  | |- context [let (_, _) := occupy ?g ?i in _] => destruct (occupy g i) as [[|] ?] eqn:?
  | |- context [match get_nav_point ?g ?i with _ => _ end] => destruct (get_nav_point g i) eqn:?
  | |- context [if snaps ?a ?b then _ else _] => destruct (snaps a b) eqn:?
  end; simpl.


Lemma traveler_inv_step dt (g : NavGraph F) tr tp tf g' tr' tp' tf' :
  traveler_inv tr tp -> move_traveler dt g tr tp tf = (g', Keep tr' tp' tf') ->
  traveler_inv tr' tp'.
Proof.
  intros Hinv. unfold_tick; intros H; inversion H; subst; clear H;
    unfold traveler_inv in *; simpl in *; intros p' n' Hp' Hn'; try done.
  all: try (rewrite Hp' in *; injection Heqo as <-; apply Nat.leb_gt in Heqb;
            injection Hn' as <-; done).
  all: eauto.
Qed.

Lemma compute_initial_path_inv pop alloc fuel (g : NavGraph F) tr tr' tp :
  compute_initial_path pop alloc fuel g tr = Some (tr', Some tp) ->
  next_nav_point tp = None /\ current_index tr' = current_index tr /\ traveler_inv tr' tp.
Proof.
  unfold compute_initial_path.
  destruct (find_path pop alloc fuel g (origin tr) (destination tr)) as [[p|]|]; intros H;
    inversion H; subst; simpl; split_and!; try done.
Qed.

End TravelerTick.

Section FirstTick.
Context {F : Type} `{!F32 F}.

(** C10. On the first tick of a newly pathed traveler (index 0, no
    reservation) the only reservation attempted is [occupy(path[1])];
    [path[0]] is neither reserved nor moved toward: when the reservation
    fails nothing changes, and when it succeeds the transform either stays,
    moves by the displacement from the current waypoint toward [path[1]], or
    snaps onto [path[1]]'s location.  With a one-entry path the traveler is
    retired at once: graph and transform untouched. *)
Theorem first_tick_targets_second_entry (dt : F) (g : NavGraph F) (tr : AutoTraveler F)
    (tp : TravelerPosition) (tf : Transform F) (p : list Z)
    (Hp : path tr = Some p) (Hi : current_index tr = 0%nat) (Hn : next_nav_point tp = None) :
  (length p = 1%nat -> move_traveler dt g tr tp tf = (g, Retire))
  /\ ((2 <= length p)%nat ->
      let target := nth 1 p 0 in
      match move_traveler dt g tr tp tf with
      | (g', Keep tr' tp' tf') =>
          (fst (occupy g target) = false /\ g' = g /\ tr' = tr /\ tp' = tp /\ tf' = tf)
          \/ (fst (occupy g target) = true /\
              ((g' = snd (occupy g target) /\ tr' = tr /\
                tp' = mkTravelerPosition (current_nav_point tp) (Some target) /\
                (tf' = tf \/
                 exists from to,
                   get_nav_point (snd (occupy g target)) (current_nav_point tp) = Some from /\
                   get_nav_point (snd (occupy g target)) target = Some to /\
                   tf' = mkTransform (vadd (translation tf) (movement dt tr from to))))
               \/ (g' = unoccupy (snd (occupy g target)) (current_nav_point tp) /\
                   tr' = set_index tr 1 /\ tp' = mkTravelerPosition target None /\
                   exists to, get_nav_point (snd (occupy g target)) target = Some to /\
                              tf' = mkTransform (location to))))
      | (_, Retire) => False
      end).
Proof.
  split.
  - intros Hlen. unfold move_traveler. rewrite Hp, Hlen, Hi. done.
  - intros Hlen target. unfold move_traveler. rewrite Hp, Hi, Hn.
    assert (Hb : (length p <=? 1)%nat = false) by (apply Nat.leb_gt; lia).
    rewrite Hb. fold target.
    destruct (occupy g target) as [[|] g1] eqn:Hocc; simpl.
    + destruct (get_nav_point g1 (current_nav_point tp)) as [from|] eqn:Ef,
               (get_nav_point g1 target) as [to|] eqn:Et;
        try destruct (snaps _ _); simpl; rewrite ?Hi; right; split; try done.
      * right. split_and!; eauto.
      * left. split_and!; try done. right. eauto.
      * left. split_and!; auto.
      * left. split_and!; auto.
      * left. split_and!; auto.
    + auto 10.
Qed.
End FirstTick.

(** A traveler from waypoint 1 to 4 of the diamond, as [compute_initial_path]
    leaves it ([find_path(1, 4) = [2, 4]]). *)
Definition diamond_traveler : AutoTraveler Q :=
  set_path (AutoTraveler_new 1 4 (inject_Z 1)) (Some [2; 4]).

Lemma first_tick_targets_second_entry_witness :
  path diamond_traveler = Some [2; 4] /\ current_index diamond_traveler = 0%nat /\
  ((length [2; 4] = 1%nat ->
    move_traveler (inject_Z 1) diamond diamond_traveler (mkTravelerPosition 1 None)
                  (mkTransform (pt 0 0 0)) = (diamond, Retire))
   /\ ((2 <= length [2; 4])%nat ->
      let target := nth 1 [2; 4] 0 in
      match move_traveler (inject_Z 1) diamond diamond_traveler (mkTravelerPosition 1 None)
              (mkTransform (pt 0 0 0)) with
      | (g', Keep tr' tp' tf') =>
          (fst (occupy diamond target) = false /\ g' = diamond /\ tr' = diamond_traveler /\
           tp' = mkTravelerPosition 1 None /\ tf' = mkTransform (pt 0 0 0))
          \/ (fst (occupy diamond target) = true /\
              ((g' = snd (occupy diamond target) /\ tr' = diamond_traveler /\
                tp' = mkTravelerPosition (current_nav_point (mkTravelerPosition 1 None)) (Some target) /\
                (tf' = mkTransform (pt 0 0 0) \/
                 exists from to,
                   get_nav_point (snd (occupy diamond target))
                                 (current_nav_point (mkTravelerPosition 1 None)) = Some from /\
                   get_nav_point (snd (occupy diamond target)) target = Some to /\
                   tf' = mkTransform (vadd (translation (mkTransform (pt 0 0 0)))
                                           (movement (inject_Z 1) diamond_traveler from to))))
               \/ (g' = unoccupy (snd (occupy diamond target))
                                 (current_nav_point (mkTravelerPosition 1 None)) /\
                   tr' = set_index diamond_traveler 1 /\ tp' = mkTravelerPosition target None /\
                   exists to, get_nav_point (snd (occupy diamond target)) target = Some to /\
                              tf' = mkTransform (location to))))
      | (_, Retire) => False
      end)).
Proof.
  split; [reflexivity|]. split; [reflexivity|].
  exact (first_tick_targets_second_entry (inject_Z 1) diamond diamond_traveler
           (mkTravelerPosition 1 None) (mkTransform (pt 0 0 0)) [2; 4]
           eq_refl eq_refl eq_refl).
Defined.


(** ** Full waypoints are impassable *)

Section Impassable.
Context {F : Type} `{!F32 F}.
Variable pop : list PathNode -> option (PathNode * list PathNode).
Variable alloc : Z -> bool.

(** Every predecessor entry of the search names a waypoint with headroom. *)
Definition cf_ok (g : NavGraph F) (st : SearchState) : Prop :=
  forall k v, came_from st !! k = Some v -> can_occupy g k = true.

Lemma visit_cf_ok (g : NavGraph F) b cur st nid st' :
  cf_ok g st -> visit g b cur st nid = Some st' -> cf_ok g st'.
Proof.
  intros Hok. unfold visit.
  destruct (points g !! nid) as [nb|] eqn:Hnb; [|done].
  destruct (np_can_occupy nb) eqn:Hc; simpl; [|by intros [= <-]].
  destruct (g_score st !! cur) as [gc|]; [|done].
  destruct (_ <? _); [|by intros [= <-]].
  assert (Hk : forall k v, <[nid:=cur]> (came_from st) !! k = Some v -> can_occupy g k = true).
  { intros k v. destruct (decide (k = nid)) as [->|Hne].
    - intros _. unfold can_occupy. by rewrite Hnb.
    - rewrite lookup_insert_ne by done. apply Hok. }
  case_bool_decide; intros [= <-]; exact Hk.
Qed.

Lemma visit_all_cf_ok (g : NavGraph F) b cur l : forall st st',
  cf_ok g st -> visit_all g b cur st l = Some st' -> cf_ok g st'.
Proof.
  induction l as [|n l IH]; simpl; intros st st' Hok.
  - by intros [= <-].
  - destruct (visit g b cur st n) as [st1|] eqn:Hv; [|done].
    apply IH. by eapply visit_cf_ok.
Qed.

Lemma walk_keys fuel a (cf : gmap Z Z) : forall prev acc res,
  walk fuel a cf prev acc = Some res -> forall x, x ∈ res -> x ∈ acc \/ is_Some (cf !! x).
Proof.
  induction fuel as [|fuel IH]; simpl; intros prev acc res; [done|].
  case_bool_decide; [by intros [= <-]; auto|].
  destruct (cf !! prev) as [q|] eqn:Hq; [|done].
  intros Hw x Hx. destruct (IH _ _ _ Hw x Hx) as [Hin|]; [|by right].
  apply elem_of_cons in Hin as [->|]; [right; by eexists|by left].
Qed.

Lemma search_can_occupy fuel (g : NavGraph F) a b : forall st p,
  cf_ok g st -> search pop fuel g a b st = Some (Some p) ->
  forall x, x ∈ p -> can_occupy g x = true.
Proof.
  induction fuel as [|fuel IH]; cbn [search]; intros st p Hok; [done|].
  destruct (pop (open_set st)) as [[cur rest]|]; [|done].
  case_bool_decide.
  - destruct (walk _ _ _ _ _) as [res|] eqn:Hw; [|done]. intros [= <-] x Hx.
    destruct (walk_keys _ _ _ _ _ _ Hw x Hx) as [Hin|[v Hv]].
    + by apply not_elem_of_nil in Hin.
    + by apply (Hok x v).
  - destruct (points g !! pn_id cur) as [pc|].
    + destruct (visit_all _ _ _ _ _) as [st2|] eqn:Hv; [|done].
      apply IH. eapply visit_all_cf_ok; [|exact Hv]. exact Hok.
    + apply IH. exact Hok.
Qed.

Lemma find_path_can_occupy fuel (g : NavGraph F) a b p :
  find_path pop alloc fuel g a b = Some (Some p) -> forall x, x ∈ p -> can_occupy g x = true.
Proof.
  intros Hf. destruct (find_path_found pop alloc fuel g a b p Hf) as (pa & pb & _ & _ & Hs).
  revert Hs. apply search_can_occupy. intros k v. simpl. by rewrite lookup_empty.
Qed.

(** C4. A waypoint [w] whose occupancy has reached its maximum stays in
    the graph (also after further [occupy] calls), and no path returned
    by [find_path] goes through it. *)
Theorem saturated_waypoint_avoided (g : NavGraph F) (w : Z) (pw : NavPoint F)
    (Hw : points g !! w = Some pw) (Hfull : max_occupancy pw <= current_occupancy pw) :
  has_node g w = true
  /\ (forall i, has_node (snd (occupy g i)) w = true)
  /\ (forall fuel a b p, find_path pop alloc fuel g a b = Some (Some p) -> w ∉ p).
Proof.
  assert (Hhas : has_node g w = true).
  { unfold has_node. rewrite Hw. by apply bool_decide_eq_true_2. }
  split; [done|]. split.
  - intros i. by rewrite occupy_has_node.
  - intros fuel a b p Hfp Hin.
    pose proof (find_path_can_occupy fuel g a b p Hfp w Hin) as Hc.
    unfold can_occupy, np_can_occupy in Hc. rewrite Hw in Hc.
    apply Z.ltb_lt in Hc. lia.
Qed.
End Impassable.

(** Waypoint 2 of the diamond after [occupy(2)]. *)
Definition diamond_2_full : NavGraph Q := snd (occupy diamond 2).

Lemma saturated_waypoint_avoided_witness :
  points diamond_2_full !! 2 = Some (with_occupancy (with_connections (np 2 0 1 0) [1; 4]) 1) /\
  find_path min_pop (alloc_upto 1000000) 10 diamond_2_full 1 4 = Some (Some [3; 4]) /\
  (has_node diamond_2_full 2 = true
   /\ (forall i, has_node (snd (occupy diamond_2_full i)) 2 = true)
   /\ (forall fuel a b p, find_path min_pop (alloc_upto 1000000) fuel diamond_2_full a b = Some (Some p) -> 2 ∉ p)).
Proof.
  assert (Hw : points diamond_2_full !! 2 =
               Some (with_occupancy (with_connections (np 2 0 1 0) [1; 4]) 1))
    by (vm_compute; reflexivity).
  split; [exact Hw|]. split; [vm_compute; reflexivity|].
  apply (saturated_waypoint_avoided min_pop (alloc_upto 1000000) diamond_2_full 2 _ Hw). simpl. lia.
Defined.

(** ** The start node's occupancy is never consulted *)

Section StartNode.
Context {F : Type} `{!F32 F}.
Variable pop : list PathNode -> option (PathNode * list PathNode).
Hypothesis Hpop : pop_ok pop.









End StartNode.

(** ** A full destination is unreachable *)

Section FullDestination.
Context {F : Type} `{!F32 F}.
Variable pop : list PathNode -> option (PathNode * list PathNode).
Hypothesis Hpop : pop_ok pop.





(** The termination measure: twice the sum of the [g] scores of the
    graph's waypoints (an absent score counts as [u32::MAX]) plus the
    heap size.  Every iteration decreases it. *)
Fixpoint gsum (ks : list Z) (m : gmap Z Z) : nat :=
  match ks with
  | [] => O
  | k :: ks' => (Z.to_nat (default u32_max (m !! k)) + gsum ks' m)%nat
  end.

Definition measure (ks : list Z) (st : SearchState) : nat :=
  (2 * gsum ks (g_score st) + length (open_set st))%nat.

Lemma gsum_insert_notin ks (m : gmap Z Z) k v :
  k ∉ ks -> gsum ks (<[k := v]> m) = gsum ks m.
Proof.
  induction ks as [|k' ks IH]; simpl; intros Hk; [done|].
  rewrite lookup_insert_ne by (intros ->; apply Hk; left).
  rewrite IH; [done|]. intros Hin. apply Hk. by right.
Qed.

Lemma gsum_insert_in ks (m : gmap Z Z) k v :
  NoDup ks -> k ∈ ks ->
  (gsum ks (<[k := v]> m) + Z.to_nat (default u32_max (m !! k)) = gsum ks m + Z.to_nat v)%nat.
Proof.
  induction ks as [|k' ks IH]; simpl; intros Hnd Hk.
  - by apply not_elem_of_nil in Hk.
  - apply NoDup_cons in Hnd as [Hnot Hnd].
    destruct (decide (k = k')) as [->|Hne].
    + rewrite lookup_insert_eq, gsum_insert_notin by done. simpl. lia.
    + rewrite lookup_insert_ne by done.
      apply elem_of_cons in Hk as [->|Hk]; [done|].
      specialize (IH Hnd Hk). lia.
Qed.

Section Keys.
Variable g : NavGraph F.
Variable ks : list Z.
Hypothesis Hnd : NoDup ks.
Hypothesis Hks : forall i, is_Some (points g !! i) -> i ∈ ks.

Lemma visit_measure b cur st nid st' :
  visit g b cur st nid = Some st' -> (measure ks st' <= measure ks st)%nat.
Proof.
  unfold visit, measure.
  destruct (points g !! nid) as [nb|] eqn:Hnb; [|done].
  assert (Hin : nid ∈ ks) by (apply Hks; rewrite Hnb; done).
  destruct (np_can_occupy nb); simpl; [|intros [= <-]; lia].
  destruct (g_score st !! cur) as [gc|]; [|done].
  set (gn := default u32_max (g_score st !! nid)).
  set (t := u32_add gc (h_func g cur (id nb))).
  pose proof (gsum_insert_in ks (g_score st) nid gn Hnd Hin) as H1.
  fold gn in H1.
  destruct (t <? gn) eqn:Hlt.
  - apply Z.ltb_lt in Hlt.
    pose proof (gsum_insert_in ks (<[nid := gn]> (g_score st)) nid t Hnd Hin) as H2.
    rewrite lookup_insert_eq in H2. simpl in H2.
    pose proof (u32_add_range gc (h_func g cur (id nb))) as Hr. fold t in Hr.
    assert (Ht : (Z.to_nat t + 1 <= Z.to_nat gn)%nat) by lia.
    case_bool_decide; intros [= <-]; simpl; lia.
  - intros [= <-]. simpl. lia.
Qed.

Lemma visit_all_measure b cur l : forall st st',
  visit_all g b cur st l = Some st' -> (measure ks st' <= measure ks st)%nat.
Proof.
  induction l as [|n l IH]; simpl; intros st st'; [intros [= <-]; lia|].
  destruct (visit g b cur st n) as [st1|] eqn:Hv; [|done].
  intros H. apply IH in H. apply visit_measure in Hv. lia.
Qed.


End Keys.
End FullDestination.







(** ** Symmetry of the connections under the graph's mutating calls *)

Section Symmetry.
Context {F : Type} `{!F32 F}.

Lemma elem_of_set_insert x y s : y ∈ set_insert x s <-> y = x \/ y ∈ s.
Proof.
  unfold set_insert. case_decide; rewrite ?elem_of_app, ?list_elem_of_singleton; naive_solver.
Qed.

Lemma elem_of_set_remove x y s : y ∈ set_remove x s <-> y ∈ s /\ y ≠ x.
Proof. unfold set_remove. rewrite list_elem_of_filter. naive_solver. Qed.

Lemma set_insert_idem x s : set_insert x (set_insert x s) = set_insert x s.
Proof.
  unfold set_insert. destruct (decide (x ∈ s)); [by rewrite decide_True|].
  rewrite decide_True; [done|]. apply elem_of_app. right. by left.
Qed.

Lemma set_remove_idem x s : set_remove x (set_remove x s) = set_remove x s.
Proof.
  unfold set_remove. induction s as [|y s IH]; [done|].
  rewrite filter_cons. destruct (decide (y ≠ x)); [|done].
  rewrite filter_cons, decide_True by done. by rewrite IH.
Qed.

Lemma and_modify_lookup k (f : NavPoint F -> NavPoint F) m j :
  and_modify k f m !! j = if decide (j = k) then f <$> m !! j else m !! j.
Proof.
  unfold and_modify. destruct (m !! k) as [v|] eqn:E; case_decide; subst.
  - by rewrite lookup_insert_eq, E.
  - by rewrite lookup_insert_ne.
  - by rewrite E.
  - done.
Qed.

(** Applying an idempotent update along a list of keys. *)
Lemma fold_and_modify_lookup (f : NavPoint F -> NavPoint F)
    (Hf : forall p, f (f p) = f p) l : forall m k,
  fold_left (fun m c => and_modify c f m) l m !! k
  = if decide (k ∈ l) then f <$> m !! k else m !! k.
Proof.
  induction l as [|c l IH]; intros m k; cbn [fold_left].
  - rewrite decide_False; [done|]. apply not_elem_of_nil.
  - rewrite IH, !and_modify_lookup. destruct (decide (k = c)) as [->|Hne].
    + rewrite (decide_True (P := c ∈ c :: l)) by left.
      destruct (decide (c ∈ l)); [|done].
      destruct (m !! c); simpl; [by rewrite Hf|done].
    + destruct (decide (k ∈ l)).
      * rewrite decide_True; [done|]. by right.
      * rewrite decide_False; [done|]. rewrite elem_of_cons. naive_solver.
Qed.

Lemma insert_conn_idem x (p : NavPoint F) :
  with_connections (with_connections p (set_insert x (connections p)))
    (set_insert x (connections (with_connections p (set_insert x (connections p)))))
  = with_connections p (set_insert x (connections p)).
Proof. simpl. by rewrite set_insert_idem. Qed.

Lemma remove_conn_idem x (p : NavPoint F) :
  with_connections (with_connections p (set_remove x (connections p)))
    (set_remove x (connections (with_connections p (set_remove x (connections p)))))
  = with_connections p (set_remove x (connections p)).
Proof. simpl. by rewrite set_remove_idem. Qed.

(** [add_nav_point], waypoint by waypoint. *)
Lemma add_lookup (g : NavGraph F) p j :
  points (add_nav_point g p) !! j =
  if decide (j = id p) then Some p
  else if decide (j ∈ connections p)
       then (fun b => with_connections b (set_insert (id p) (connections b))) <$> points g !! j
       else points g !! j.
Proof.
  unfold add_nav_point. simpl points.
  case_decide; [subst; by rewrite lookup_insert_eq|].
  rewrite lookup_insert_ne by done.
  apply (fold_and_modify_lookup (fun b => with_connections b (set_insert (id p) (connections b)))).
  apply insert_conn_idem.
Qed.

Lemma add_old (g : NavGraph F) p j q' :
  j ≠ id p -> points (add_nav_point g p) !! j = Some q' ->
  exists q, points g !! j = Some q /\ id q' = id q /\
    forall x, x ∈ connections q' <-> x ∈ connections q \/ (x = id p /\ j ∈ connections p).
Proof.
  intros Hj. rewrite add_lookup, decide_False by done. case_decide.
  - destruct (points g !! j) as [q|]; simpl; [|done]. intros [= <-].
    exists q. split; [done|]. split; [done|]. intros x. simpl.
    rewrite elem_of_set_insert. naive_solver.
  - intros Hq. exists q'. naive_solver.
Qed.

Lemma add_is_Some (g : NavGraph F) p j :
  is_Some (points (add_nav_point g p) !! j) <-> j = id p \/ is_Some (points g !! j).
Proof.
  rewrite add_lookup. case_decide; [split; [by left|by eexists]|].
  case_decide; rewrite ?fmap_is_Some; naive_solver.
Qed.

Lemma add_wf (g : NavGraph F) p :
  graph_wf g -> points g !! id p = None ->
  Forall (fun c => is_Some (points g !! c)) (connections p) ->
  graph_wf (add_nav_point g p).
Proof.
  intros (Hk & Hc & Hs) Hnew Hcp. rewrite Forall_forall in Hcp.
  assert (Hnot : forall j q, points g !! j = Some q -> id p ∉ connections q).
  { intros j q Hq Hin. destruct (Hc j q (id p) Hq Hin) as [? Hsome]. congruence. }
  assert (Hnew_pt : forall q, points (add_nav_point g p) !! id p = Some q -> q = p).
  { intros q. rewrite add_lookup, decide_True by done. congruence. }
  split; [|split].
  - intros k q Hq. destruct (decide (k = id p)) as [->|Hne].
    + by rewrite (Hnew_pt q Hq).
    + destruct (add_old g p k q Hne Hq) as (q0 & Hq0 & -> & _). by apply Hk.
  - intros a qa c Ha Hin. apply add_is_Some.
    destruct (decide (a = id p)) as [->|Hne].
    + rewrite (Hnew_pt qa Ha) in Hin. right. by apply Hcp.
    + destruct (add_old g p a qa Hne Ha) as (q0 & Hq0 & _ & Hm).
      apply Hm in Hin as [Hin|[-> _]]; [right; by apply (Hc a q0)|by left].
  - intros a b qa qb Ha Hb.
    destruct (decide (a = id p)) as [->|Hna], (decide (b = id p)) as [->|Hnb].
    + rewrite (Hnew_pt qa Ha), (Hnew_pt qb Hb). done.
    + rewrite (Hnew_pt qa Ha).
      destruct (add_old g p b qb Hnb Hb) as (q0 & Hq0 & _ & Hm).
      rewrite Hm. specialize (Hnot b q0 Hq0). naive_solver.
    + rewrite (Hnew_pt qb Hb).
      destruct (add_old g p a qa Hna Ha) as (q0 & Hq0 & _ & Hm).
      rewrite Hm. specialize (Hnot a q0 Hq0). naive_solver.
    + destruct (add_old g p a qa Hna Ha) as (q0a & Hq0a & _ & Hma).
      destruct (add_old g p b qb Hnb Hb) as (q0b & Hq0b & _ & Hmb).
      rewrite Hma, Hmb. specialize (Hs a b q0a q0b Hq0a Hq0b). naive_solver.
Qed.

(** [connect_points], waypoint by waypoint. *)
Lemma connect_old (g : NavGraph F) u v j q' :
  points (connect_points g u v) !! j = Some q' ->
  exists q, points g !! j = Some q /\ id q' = id q /\
    forall x, x ∈ connections q' <-> x ∈ connections q \/
      (is_Some (points g !! u) /\ is_Some (points g !! v) /\
       ((j = u /\ x = v) \/ (j = v /\ x = u))).
Proof.
  unfold connect_points, has_node.
  destruct (bool_decide_reflect (is_Some (points g !! u))) as [Hu|Hu],
           (bool_decide_reflect (is_Some (points g !! v))) as [Hv|Hv]; simpl;
    try (intros Hq; exists q'; naive_solver).
  rewrite !and_modify_lookup.
  destruct (points g !! j) as [q|] eqn:Hj; [|by repeat case_decide].
  intros Hq. exists q. split; [done|].
  repeat case_decide; simpl in Hq; injection Hq as <-; simpl; split; try done;
    intros x; rewrite ?elem_of_set_insert; naive_solver.
Qed.

Lemma connect_is_Some (g : NavGraph F) u v j :
  is_Some (points (connect_points g u v) !! j) <-> is_Some (points g !! j).
Proof.
  unfold connect_points.
  destruct (negb (has_node g u) || negb (has_node g v)); [done|]. simpl.
  rewrite !and_modify_lookup. repeat case_decide; rewrite ?fmap_is_Some; done.
Qed.

Lemma connect_wf (g : NavGraph F) u v : graph_wf g -> graph_wf (connect_points g u v).
Proof.
  intros (Hk & Hc & Hs). split; [|split].
  - intros k q Hq. destruct (connect_old g u v k q Hq) as (q0 & Hq0 & -> & _). by apply Hk.
  - intros a qa c Ha Hin. apply connect_is_Some.
    destruct (connect_old g u v a qa Ha) as (q0 & Hq0 & _ & Hm).
    destruct (proj1 (Hm c) Hin) as [Hin0|(Hu & Hv & [[_ Hcv]|[_ Hcv]])]; [by apply (Hc a q0)|by rewrite Hcv|by rewrite Hcv].
  - intros a b qa qb Ha Hb.
    destruct (connect_old g u v a qa Ha) as (q0a & Hq0a & _ & Hma).
    destruct (connect_old g u v b qb Hb) as (q0b & Hq0b & _ & Hmb).
    rewrite Hma, Hmb. specialize (Hs a b q0a q0b Hq0a Hq0b). naive_solver.
Qed.

(** [remove_point], waypoint by waypoint. *)
Lemma remove_lookup (g : NavGraph F) i pi j :
  points g !! i = Some pi ->
  points (remove_point g i) !! j =
  if decide (j = i) then None
  else if decide (j ∈ connections pi)
       then (fun b => with_connections b (set_remove (id pi) (connections b))) <$> points g !! j
       else points g !! j.
Proof.
  intros Hpi. unfold remove_point. rewrite Hpi. simpl points.
  rewrite (fold_and_modify_lookup (fun b => with_connections b (set_remove (id pi) (connections b))))
    by apply remove_conn_idem.
  destruct (decide (j = i)) as [->|Hj].
  - rewrite lookup_delete_eq. by case_decide.
  - by rewrite lookup_delete_ne by congruence.
Qed.

Lemma remove_wf (g : NavGraph F) i : graph_wf g -> graph_wf (remove_point g i).
Proof.
  intros Hwf. destruct (points g !! i) as [pi|] eqn:Hpi.
  2:{ unfold remove_point. by rewrite Hpi. }
  destruct Hwf as (Hk & Hc & Hs).
  assert (Hid : id pi = i) by (by apply Hk).
  assert (Hold : forall j q', points (remove_point g i) !! j = Some q' ->
    j ≠ i /\ exists q, points g !! j = Some q /\ id q' = id q /\
      forall x, x ∈ connections q' <-> x ∈ connections q /\ (x ≠ i \/ j ∉ connections pi)).
  { intros j q'. rewrite (remove_lookup g i pi j Hpi), Hid.
    case_decide; [done|]. intros Hq. split; [done|].
    case_decide.
    - destruct (points g !! j) as [q|]; simpl in Hq; [|done]. injection Hq as <-.
      exists q. split; [done|]. split; [done|]. intros x. simpl.
      rewrite elem_of_set_remove. naive_solver.
    - exists q'. naive_solver. }
  split; [|split].
  - intros k q Hq. destruct (Hold k q Hq) as (_ & q0 & Hq0 & -> & _). by apply Hk.
  - intros a qa c Ha Hin. destruct (Hold a qa Ha) as (Hai & q0 & Hq0 & _ & Hm).
    apply Hm in Hin as [Hin Hx].
    assert (Hci : c ≠ i).
    { intros ->. destruct Hx as [Hx|Hx]; [done|]. apply Hx.
      apply (Hs i a pi q0 Hpi Hq0). done. }
    rewrite (remove_lookup g i pi c Hpi), decide_False by done.
    destruct (Hc a q0 c Hq0 Hin) as [qc Hqc]. rewrite Hqc.
    case_decide; by eexists.
  - intros a b qa qb Ha Hb.
    destruct (Hold a qa Ha) as (Hai & q0a & Hq0a & _ & Hma).
    destruct (Hold b qb Hb) as (Hbi & q0b & Hq0b & _ & Hmb).
    rewrite Hma, Hmb. specialize (Hs a b q0a q0b Hq0a Hq0b). naive_solver.
Qed.

Lemma NavGraph_new_wf : graph_wf (NavGraph_new (F := F)).
Proof.
  split; [|split]; intros ?? * Ha; simpl in Ha; by rewrite lookup_empty in Ha.
Qed.

Lemma run_ops_wf ops : forall g : NavGraph F,
  graph_wf g -> fresh_adds g ops -> graph_wf (run_ops g ops).
Proof.
  induction ops as [|op ops IH]; simpl; intros g Hwf Hf; [done|].
  destruct Hf as [Hf Hfs]. apply IH; [|done].
  destruct op; simpl in *.
  - destruct Hf as [Hf1 Hf2]. by apply add_wf.
  - by apply connect_wf.
  - by apply remove_wf.
Qed.
End Symmetry.

(** C3 (amended): starting from an empty graph, after any sequence of
    [connect_points], [remove_point] and [add_nav_point] calls in which every
    added id is not yet in the graph and every connection declared by an added
    waypoint names a waypoint already present, connectivity is symmetric
    ([b] is in [a]'s connections iff [a] is in [b]'s), every connection names
    a waypoint of the graph, and every waypoint is stored under its id. *)
Theorem add_connect_remove_symmetric {F : Type} `{!F32 F} (ops : list (GraphOp F)) :
  fresh_adds NavGraph_new ops -> graph_wf (run_ops NavGraph_new ops).
Proof. intros Hf. apply run_ops_wf; [apply NavGraph_new_wf|exact Hf]. Qed.

Definition sym_ops : list (GraphOp Q) :=
  [OpAdd (np 1 0 0 0); OpAdd (with_connections (np 2 0 1 0) [1]); OpConnect 1 3;
   OpAdd (with_connections (np 3 1 1 0) [1; 2]); OpRemove 2; OpConnect 3 3].

Lemma add_connect_remove_symmetric_witness :
  fresh_adds NavGraph_new sym_ops /\
  graph_wf (run_ops NavGraph_new sym_ops) /\
  connections <$> points (run_ops NavGraph_new sym_ops) !! 1 = Some [3] /\
  connections <$> points (run_ops NavGraph_new sym_ops) !! 3 = Some [1; 3].
Proof.
  assert (Hf : fresh_adds NavGraph_new sym_ops) by (vm_compute; repeat econstructor).
  split; [exact Hf|]. split; [exact (add_connect_remove_symmetric sym_ops Hf)|].
  split; vm_compute; reflexivity.
Defined.

(** A waypoint added after another one already declared a connection to it,
    and a waypoint re-added under an id already in the graph. *)
Definition late_target_ops : list (GraphOp Q) :=
  [OpAdd (with_connections (np 1 0 0 0) [2]); OpAdd (np 2 0 1 0)].

Definition readd_ops : list (GraphOp Q) :=
  [OpAdd (np 1 0 0 0); OpAdd (np 2 0 1 0); OpConnect 1 2; OpAdd (np 2 0 1 0)].

(** C3 (counterexample): in both sequences waypoint 1 lists 2 as a connection
    while waypoint 2 does not list 1. *)
Lemma add_does_not_repair_symmetry :
  (exists pa pb, points (run_ops NavGraph_new late_target_ops) !! 1 = Some pa /\
     points (run_ops NavGraph_new late_target_ops) !! 2 = Some pb /\
     2 ∈ connections pa /\ 1 ∉ connections pb) /\
  (exists pa pb, points (run_ops NavGraph_new readd_ops) !! 1 = Some pa /\
     points (run_ops NavGraph_new readd_ops) !! 2 = Some pb /\
     2 ∈ connections pa /\ 1 ∉ connections pb).
Proof.
  split; eexists _, _;
    (split; [vm_compute; reflexivity|]); (split; [vm_compute; reflexivity|]);
    split; apply (bool_decide_unpack _); vm_compute; reflexivity.
Qed.

(** ** Paths along a straight chain *)

Section Chain.
Context {F : Type} `{!F32 F}.
Variable pop : list PathNode -> option (PathNode * list PathNode).
Hypothesis Hpop : pop_ok pop.
Variable g : NavGraph F.
Variable c : list Z.
Hypothesis Hc : is_chain g c.
Hypothesis Hbound : forall x y, x ∈ c -> y ∈ c ->
  chain_cost g c (length c - 1) + h_func g x y < u32_max.

(** The state in front of the [k]-th pop: [c_k] alone in the heap, the
    first [k] edges relaxed, nothing beyond [c_k] touched. *)
Definition chain_inv (k : nat) (st : SearchState) : Prop :=
  (exists f, open_set st = [mkPathNode (nth k c 0) f]) /\
  (forall x, x ∈ search_ids st -> x = nth k c 0) /\
  (forall j, (j <= k)%nat -> g_score st !! nth j c 0 = Some (chain_cost g c j)) /\
  (forall j, (k < j < length c)%nat -> g_score st !! nth j c 0 = None) /\
  (forall j, (1 <= j <= k)%nat -> came_from st !! nth j c 0 = Some (nth (j - 1) c 0)) /\
  (forall j, (k < j < length c)%nat -> came_from st !! nth j c 0 = None) /\
  size (came_from st) = k.

(** The state after [c_k] relaxed its successor [c_(k+1)]. *)
Definition fwd_state (b : Z) (k : nat) (st : SearchState) : SearchState :=
  let n := nth (S k) c 0 in
  let t := chain_cost g c (S k) in
  let cur_f := u32_add t (h_func g n b) in
  mkSearchState (mkPathNode n cur_f :: open_set st) ({[n]} ∪ search_ids st)
    (<[n := nth k c 0]> (came_from st)) (<[n := t]> (<[n := u32_max]> (g_score st)))
    (<[n := cur_f]> (f_score st)).

Lemma chain_nth_in j : (j < length c)%nat -> nth j c 0 ∈ c.
Proof. intros Hj. apply list_elem_of_In, nth_In, Hj. Qed.

Lemma chain_nth_inj i j : (i < length c)%nat -> (j < length c)%nat ->
  nth i c 0 = nth j c 0 -> i = j.
Proof.
  destruct Hc as (_ & Hnd & _). intros Hi Hj Heq.
  by apply (proj1 (NoDup_nth c 0) (proj1 (NoDup_ListNoDup c) Hnd)).
Qed.

Lemma chain_cost_mono j k : (j <= k)%nat -> chain_cost g c j <= chain_cost g c k.
Proof.
  induction 1 as [|k Hjk IH]; [lia|]. simpl.
  pose proof (h_func_range g (nth k c 0) (nth (S k) c 0)). lia.
Qed.

Lemma chain_cost_nonneg k : 0 <= chain_cost g c k.
Proof. apply (chain_cost_mono 0 k). lia. Qed.

Lemma chain_len : (2 <= length c)%nat.
Proof. by destruct Hc. Qed.

Lemma chain_point j : (j < length c)%nat -> exists p,
  points g !! nth j c 0 = Some p /\ id p = nth j c 0 /\
  Permutation (connections p) (chain_nbrs c j) /\ np_can_occupy p = true.
Proof. destruct Hc as (_ & _ & Hp). apply Hp. Qed.

(** A step from [c_k] back to [c_(k-1)] changes nothing. *)
Lemma visit_back b k st :
  (1 <= k < length c)%nat ->
  g_score st !! nth (k - 1) c 0 = Some (chain_cost g c (k - 1)) ->
  g_score st !! nth k c 0 = Some (chain_cost g c k) ->
  visit g b (nth k c 0) st (nth (k - 1) c 0) = Some st.
Proof.
  intros Hk Hprev Hcur. destruct (chain_point (k - 1)) as (p & Hp & Hid & _) ; [lia|].
  unfold visit. rewrite Hp. destruct (negb (np_can_occupy p)); [done|].
  rewrite Hcur, Hprev, Hid. simpl default.
  pose proof (Hbound (nth k c 0) (nth (k - 1) c 0)
                ltac:(apply chain_nth_in; lia) ltac:(apply chain_nth_in; lia)) as Hb.
  pose proof (chain_cost_mono k (length c - 1) ltac:(lia)).
  pose proof (h_func_range g (nth k c 0) (nth (k - 1) c 0)).
  pose proof (chain_cost_nonneg k).
  rewrite u32_add_small by (unfold u32_max in *; lia).
  assert (Hmono : chain_cost g c (k - 1) <= chain_cost g c k) by (apply chain_cost_mono; lia).
  destruct (_ <? _) eqn:Hlt; [apply Z.ltb_lt in Hlt; lia|].
  rewrite insert_id by done. by destruct st.
Qed.

(** A step from [c_k] forward to [c_(k+1)] relaxes it. *)
Lemma visit_fwd b k st :
  (S k < length c)%nat ->
  g_score st !! nth k c 0 = Some (chain_cost g c k) ->
  g_score st !! nth (S k) c 0 = None ->
  nth (S k) c 0 ∉ search_ids st ->
  visit g b (nth k c 0) st (nth (S k) c 0) = Some (fwd_state b k st).
Proof.
  intros Hk Hcur Hnext Hids. destruct (chain_point (S k)) as (p & Hp & Hid & _ & Hocc); [lia|].
  unfold visit. rewrite Hp, Hocc. simpl negb. cbv iota.
  rewrite Hcur, Hnext, Hid. simpl default.
  pose proof (Hbound (nth k c 0) (nth (S k) c 0)
                ltac:(apply chain_nth_in; lia) ltac:(apply chain_nth_in; lia)) as Hb.
  pose proof (chain_cost_mono (S k) (length c - 1) ltac:(lia)).
  pose proof (h_func_range g (nth k c 0) (nth (S k) c 0)).
  pose proof (chain_cost_nonneg k).
  assert (Hs : chain_cost g c (S k) = chain_cost g c k + h_func g (nth k c 0) (nth (S k) c 0))
    by reflexivity.
  rewrite u32_add_small by (unfold u32_max in *; lia).
  rewrite <- Hs.
  assert (Hlt : chain_cost g c (S k) < u32_max) by lia.
  apply Z.ltb_lt in Hlt. rewrite Hlt.
  rewrite bool_decide_eq_false_2 by done. reflexivity.
Qed.

Lemma chain_step b k st :
  b = nth (length c - 1) c 0 -> (S k < length c)%nat -> chain_inv k st ->
  exists st2, (forall fuel, search pop (S fuel) g (nth 0 c 0) b st
                             = search pop fuel g (nth 0 c 0) b st2) /\
              chain_inv (S k) st2.
Proof.
  intros Hb Hk (Hopen & Hids & Hg & Hgn & Hcf & Hcfn & Hsize).
  destruct Hopen as [f0 Hopen].
  set (st1 := mkSearchState [] (search_ids st ∖ {[nth k c 0]})
                            (came_from st) (g_score st) (f_score st)).
  exists (fwd_state b k st1). split.
  - intros fuel. cbn [search]. rewrite Hopen.
    pose proof (Hpop [mkPathNode (nth k c 0) f0]) as Hp1.
    destruct (pop [mkPathNode (nth k c 0) f0]) as [[y l']|] eqn:Hpp; [|done].
    destruct (pop_singleton pop _ _ _ Hpop Hpp) as [-> ->]. simpl pn_id.
    rewrite bool_decide_eq_false_2.
    2:{ intros Heq. subst b. apply chain_nth_inj in Heq; lia. }
    destruct (chain_point k) as (p & Hpk & _ & Hperm & _); [lia|].
    rewrite Hpk. fold st1.
    assert (Hg1k : g_score st1 !! nth k c 0 = Some (chain_cost g c k)) by (apply Hg; lia).
    assert (Hg1n : g_score st1 !! nth (S k) c 0 = None) by (apply Hgn; lia).
    assert (Hi1n : nth (S k) c 0 ∉ search_ids st1).
    { simpl. intros Hin. apply elem_of_difference in Hin as [Hin Hnot].
      apply Hids in Hin. apply Hnot. by apply elem_of_singleton. }
    unfold chain_nbrs in Hperm. destruct k as [|k'].
    + rewrite (proj2 (Nat.ltb_lt 1 (length c)) ltac:(lia)) in Hperm. simpl in Hperm.
      apply Permutation_sym, Permutation_length_1_inv in Hperm. rewrite Hperm. simpl.
      by rewrite visit_fwd.
    + rewrite (proj2 (Nat.ltb_lt (S (S k')) (length c)) Hk) in Hperm. simpl in Hperm.
      assert (Hg1p : g_score st1 !! nth k' c 0 = Some (chain_cost g c k')) by (apply Hg; lia).
      pose proof (visit_back b (S k') st1 ltac:(lia)) as Hback.
      replace (S k' - 1)%nat with k' in Hback by lia.
      apply Permutation_sym, Permutation_length_2_inv in Hperm as [-> | ->]; simpl.
      * rewrite Hback by done. by rewrite visit_fwd.
      * rewrite visit_fwd by done.
        pose proof (visit_back b (S k') (fwd_state b (S k') st1) ltac:(lia)) as Hback2.
        replace (S k' - 1)%nat with k' in Hback2 by lia.
        rewrite Hback2; [done| |].
        -- simpl. rewrite lookup_insert_ne, lookup_insert_ne; [done| |];
             intros Heq; apply chain_nth_inj in Heq; lia.
        -- simpl. rewrite lookup_insert_ne, lookup_insert_ne; [done| |];
             intros Heq; apply chain_nth_inj in Heq; lia.
  - assert (Hne : forall j, (j < length c)%nat -> j ≠ S k -> nth (S k) c 0 ≠ nth j c 0).
    { intros j Hj Hjk Heq. apply chain_nth_inj in Heq; lia. }
    unfold chain_inv, fwd_state, st1; cbn [open_set search_ids came_from g_score f_score]. split; [|split; [|split; [|split; [|split; [|split]]]]].
    + by eexists.
    + intros x Hx. apply elem_of_union in Hx as [Hx|Hx]; [set_solver|].
      apply elem_of_difference in Hx as [Hx Hnot]. apply Hids in Hx. set_solver.
    + intros j Hj. destruct (decide (j = S k)) as [->|Hjk].
      * by rewrite lookup_insert_eq.
      * rewrite !lookup_insert_ne by (apply Hne; lia). apply Hg. lia.
    + intros j Hj. rewrite !lookup_insert_ne by (apply Hne; lia). apply Hgn. lia.
    + intros j Hj. destruct (decide (j = S k)) as [->|Hjk].
      * rewrite lookup_insert_eq. do 2 f_equal. lia.
      * rewrite lookup_insert_ne by (apply Hne; lia). apply Hcf. lia.
    + intros j Hj. rewrite lookup_insert_ne by (apply Hne; lia). apply Hcfn. lia.
    + rewrite map_size_insert_None; [by rewrite Hsize|]. apply Hcfn. lia.
Qed.

Lemma chain_walk j : (j < length c)%nat ->
  forall cf, (forall i, (1 <= i <= j)%nat -> cf !! nth i c 0 = Some (nth (i - 1) c 0)) ->
  forall fuel acc, (j < fuel)%nat ->
  walk fuel (nth 0 c 0) cf (nth j c 0) acc = Some (map (fun i => nth i c 0) (seq 1 j) ++ acc).
Proof.
  induction j as [|j IH]; intros Hj cf Hcf fuel acc Hfuel;
    (destruct fuel as [|fuel]; [lia|]); cbn [walk].
  - by rewrite bool_decide_eq_true_2.
  - rewrite bool_decide_eq_false_2 by (intros Heq; apply chain_nth_inj in Heq; lia).
    rewrite (Hcf (S j)) by lia. replace (S j - 1)%nat with j by lia.
    rewrite (IH ltac:(lia) cf (fun i Hi => Hcf i ltac:(lia)) fuel) by lia.
    by rewrite seq_S, map_app, <- app_assoc.
Qed.

Lemma map_nth_seq_tl : map (fun i => nth i c 0) (seq 1 (length c - 1)) = tl c.
Proof.
  destruct c as [|x l]; [done|]. simpl. rewrite Nat.sub_0_r, <- seq_shift, map_map. simpl.
  clear. induction l as [|y l IH]; [done|]. simpl. f_equal.
  rewrite <- seq_shift, map_map. simpl. exact IH.
Qed.

Lemma chain_last b st fuel :
  b = nth (length c - 1) c 0 -> chain_inv (length c - 1) st ->
  search pop (S fuel) g (nth 0 c 0) b st = Some (Some (tl c)).
Proof.
  intros Hb (Hopen & _ & _ & _ & Hcf & _ & Hsize). destruct Hopen as [f0 Hopen].
  cbn [search]. rewrite Hopen.
  pose proof (Hpop [mkPathNode (nth (length c - 1) c 0) f0]) as Hp1.
  destruct (pop _) as [[y l']|] eqn:Hpp; [|done].
  destruct (pop_singleton pop _ _ _ Hpop Hpp) as [-> ->]. simpl pn_id.
  rewrite bool_decide_eq_true_2 by done.
  pose proof chain_len.
  rewrite (chain_walk (length c - 1)); [|lia|exact Hcf|lia].
  by rewrite app_nil_r, map_nth_seq_tl.
Qed.

Lemma chain_search b m : b = nth (length c - 1) c 0 -> (m <= length c - 1)%nat ->
  forall st fuel, chain_inv (length c - 1 - m) st -> (m < fuel)%nat ->
  search pop fuel g (nth 0 c 0) b st = Some (Some (tl c)).
Proof.
  intros Hb. induction m as [|m IH]; intros Hm st fuel Hinv Hfuel;
    (destruct fuel as [|fuel]; [lia|]).
  - rewrite Nat.sub_0_r in Hinv. by apply chain_last.
  - destruct (chain_step b (length c - 1 - S m) st Hb ltac:(lia) Hinv) as (st2 & Hs & Hinv2).
    rewrite Hs. apply IH; [lia| |lia].
    by replace (length c - 1 - m)%nat with (S (length c - 1 - S m)) by lia.
Qed.

Lemma chain_start : chain_inv 0 (start_state g (nth 0 c 0) (nth (length c - 1) c 0)).
Proof.
  pose proof chain_len.
  split; [|split; [|split; [|split; [|split; [|split]]]]]; simpl.
  - by eexists.
  - intros x Hx. by apply elem_of_singleton in Hx.
  - intros j Hj. replace j with 0%nat by lia. by rewrite lookup_singleton_eq.
  - intros j Hj. rewrite lookup_singleton_ne; [done|].
    intros Heq. apply chain_nth_inj in Heq; lia.
  - intros j Hj. lia.
  - intros j Hj. apply lookup_empty.
  - apply map_size_empty.
Qed.
End Chain.

(** C1 (amended): for a straight chain [c] of [N >= 2] waypoints, each
    connected exactly to its neighbours in the chain and all with headroom,
    whose accumulated cost [chain_cost (N-1)] plus any heuristic value between
    two of its waypoints stays below [u32::MAX], [find_path(c_0, c_(N-1))]
    returns the [N-1] ids after the first, in chain order, provided the
    allocator serves its [with_capacity(cap_guess)] requests.  This holds for
    any heap pop order, given one loop iteration per waypoint. *)
Theorem chain_find_path {F : Type} `{!F32 F}
    (pop : list PathNode -> option (PathNode * list PathNode)) (alloc : Z -> bool)
    (Hpop : pop_ok pop)
    (g : NavGraph F) (c : list Z) (fuel : nat) (Hc : is_chain g c)
    (Hbound : forall x y, x ∈ c -> y ∈ c ->
       chain_cost g c (length c - 1) + h_func g x y < u32_max)
    (Halloc : with_capacity alloc (cap_of g (nth 0 c 0) (nth (length c - 1) c 0)) = true)
    (Hfuel : (length c <= fuel)%nat) :
  find_path pop alloc fuel g (nth 0 c 0) (nth (length c - 1) c 0) = Some (Some (tl c)).
Proof.
  pose proof (chain_len g c Hc) as Hlen.
  unfold find_path. unfold cap_of in Halloc.
  destruct (chain_point g c Hc 0) as (p0 & Hp0 & _); [lia|].
  destruct (chain_point g c Hc (length c - 1)) as (pN & HpN & _); [lia|].
  rewrite Hp0, HpN in *. rewrite Halloc.
  rewrite (chain_search pop Hpop g c Hc Hbound _ (length c - 1)); [done|done|lia| |lia].
  replace (length c - 1 - (length c - 1))%nat with 0%nat by lia.
  apply chain_start. exact Hc.
Qed.

Definition chain3 : NavGraph Q :=
  let g := fold_left add_nav_point [np 5 0 0 0; np 2 1 0 0; np 7 2 0 0] NavGraph_new in
  connect_points (connect_points g 5 2) 2 7.

Lemma chain3_is_chain : is_chain chain3 [5; 2; 7].
Proof.
  split; [simpl; lia|]. split; [apply (bool_decide_unpack _); vm_compute; reflexivity|].
  intros i Hi. simpl in Hi.
  destruct i as [|[|[|i]]]; [| | |lia]; eexists;
    (split; [vm_compute; reflexivity|]); (split; [vm_compute; reflexivity|]);
    (split; [vm_compute; apply Permutation_refl|vm_compute; reflexivity]).
Qed.

Lemma chain3_bound : forall x y, x ∈ [5; 2; 7] -> y ∈ [5; 2; 7] ->
  chain_cost chain3 [5; 2; 7] (length [5; 2; 7] - 1) + h_func chain3 x y < u32_max.
Proof.
  intros x y Hx Hy. apply list_elem_of_In in Hx, Hy. simpl in Hx, Hy.
  destruct Hx as [<-|[<-|[<-|[]]]], Hy as [<-|[<-|[<-|[]]]]; vm_compute; reflexivity.
Qed.

Lemma chain_find_path_witness :
  find_path min_pop (alloc_upto 1000000) 3 chain3 (nth 0 [5; 2; 7] 0) (nth (length [5; 2; 7] - 1) [5; 2; 7] 0)
    = Some (Some (tl [5; 2; 7])) /\
  find_path min_pop (alloc_upto 1000000) 3 chain3 5 7 = Some (Some [2; 7]).
Proof.
  split.
  - exact (chain_find_path min_pop (alloc_upto 1000000) min_pop_ok chain3 [5; 2; 7] 3
             chain3_is_chain chain3_bound ltac:(vm_compute; reflexivity) ltac:(simpl; lia)).
  - vm_compute. reflexivity.
Defined.

(** Two waypoints [2^16] apart: the heuristic [2^32 * 100] saturates to
    [u32::MAX] in the [as u32] cast. *)
Definition far_pair : NavGraph Q :=
  connect_points (add_nav_point (add_nav_point NavGraph_new (np 1 0 0 0)) (np 2 65536 0 0)) 1 2.

(** C1 (counterexample): [far_pair] is a straight chain [1; 2] with
    headroom, yet [find_path(1, 2)] finds no path: the tentative score
    [0 + u32::MAX] is not below the default [u32::MAX]. *)
Lemma far_pair_no_path :
  is_chain far_pair [1; 2] /\ h_func far_pair 1 2 = u32_max /\
  find_path min_pop (alloc_upto 1000000) 10 far_pair 1 2 = Some None.
Proof.
  split; [|split; vm_compute; reflexivity].
  split; [simpl; lia|]. split; [apply (bool_decide_unpack _); vm_compute; reflexivity|].
  intros i Hi. simpl in Hi.
  destruct i as [|[|i]]; [| |lia]; eexists;
    (split; [vm_compute; reflexivity|]); (split; [vm_compute; reflexivity|]);
    (split; [vm_compute; apply Permutation_refl|vm_compute; reflexivity]).
Qed.

(** Two waypoints [10^19] apart with speed modifier [10^38]: every
    heuristic value is at most [100], but [cap_guess] saturates to
    [usize::MAX] and [with_capacity] panics on the capacity overflow,
    whatever the allocator.  This is why [chain_find_path] asks for the
    [with_capacity] requests to be served. *)
Definition far_chain : NavGraph Q :=
  let far (i x : Z) := NavPoint_new i (pt x 0 0) (inject_Z (10 ^ 38)) 1 in
  connect_points (add_nav_point (add_nav_point NavGraph_new (far 1 0)) (far 2 (10 ^ 19))) 1 2.

Lemma far_chain_panics :
  is_chain far_chain [1; 2] /\
  (forall x y, x ∈ [1; 2] -> y ∈ [1; 2] ->
     chain_cost far_chain [1; 2] (length [1; 2] - 1) + h_func far_chain x y < u32_max) /\
  cap_of far_chain 1 2 = usize_max /\
  forall alloc fuel, find_path min_pop alloc fuel far_chain 1 2 = None.
Proof.
  split; [|split; [|split; [vm_compute; reflexivity|intros alloc fuel; vm_compute; reflexivity]]].
  - split; [simpl; lia|]. split; [apply (bool_decide_unpack _); vm_compute; reflexivity|].
    intros i Hi. simpl in Hi.
    destruct i as [|[|i]]; [| |lia]; eexists;
      (split; [vm_compute; reflexivity|]); (split; [vm_compute; reflexivity|]);
      (split; [vm_compute; apply Permutation_refl|vm_compute; reflexivity]).
  - intros x y Hx Hy. apply list_elem_of_In in Hx, Hy. simpl in Hx, Hy.
    destruct Hx as [<-|[<-|[]]], Hy as [<-|[<-|[]]]; vm_compute; reflexivity.
Qed.

(** * Further properties of the code *)

(** ** Paths returned by [find_path] are simple walks from [a] to [b] *)

Section Walks.
Context {F : Type} `{!F32 F}.
Variable pop : list PathNode -> option (PathNode * list PathNode).

(** [p] is a walk from [x]: each entry is a connection of the entry before. *)
Fixpoint is_walk (g : NavGraph F) (x : Z) (p : list Z) : Prop :=
  match p with
  | [] => True
  | y :: p' => (exists px, points g !! x = Some px /\ y ∈ connections px) /\ is_walk g y p'
  end.

(** Every predecessor entry is an edge of the graph. *)
Definition cf_edge (g : NavGraph F) (cf : gmap Z Z) : Prop :=
  forall k v, cf !! k = Some v -> exists pv, points g !! v = Some pv /\ k ∈ connections pv.

(** [k] lookups in [came_from] from [x]. *)
Fixpoint iter (cf : gmap Z Z) (n : nat) (x : Z) : option Z :=
  match n with
  | O => Some x
  | S n' => match cf !! x with Some y => iter cf n' y | None => None end
  end.

Lemma visit_cf_edge (g : NavGraph F) b cur pc st nid st' :
  points g !! cur = Some pc -> nid ∈ connections pc ->
  cf_edge g (came_from st) -> visit g b cur st nid = Some st' -> cf_edge g (came_from st').
Proof.
  intros Hpc Hn Hok. unfold visit.
  destruct (points g !! nid) as [nb|]; [|done].
  destruct (np_can_occupy nb); simpl; [|by intros [= <-]].
  destruct (g_score st !! cur); [|done].
  destruct (_ <? _); [|by intros [= <-]].
  assert (Hk : cf_edge g (<[nid:=cur]> (came_from st))).
  { intros k v. destruct (decide (k = nid)) as [->|Hne].
    - rewrite lookup_insert_eq. intros [= <-]. eauto.
    - rewrite lookup_insert_ne by done. apply Hok. }
  case_bool_decide; intros [= <-]; exact Hk.
Qed.

Lemma visit_all_cf_edge (g : NavGraph F) b cur pc l :
  points g !! cur = Some pc -> (forall n, n ∈ l -> n ∈ connections pc) ->
  forall st st', cf_edge g (came_from st) -> visit_all g b cur st l = Some st' ->
  cf_edge g (came_from st').
Proof.
  intros Hpc. induction l as [|n l IH]; simpl; intros Hl st st' Hok; [by intros [= <-]|].
  destruct (visit g b cur st n) as [st1|] eqn:Hv; [|done].
  apply IH; [intros m Hm; apply Hl; by right|].
  eapply visit_cf_edge; [exact Hpc| |exact Hok|exact Hv]. apply Hl. by left.
Qed.

Lemma search_walk fuel (g : NavGraph F) a b : forall st p,
  cf_edge g (came_from st) -> search pop fuel g a b st = Some (Some p) ->
  exists wf cf, cf_edge g cf /\ walk wf a cf b [] = Some p.
Proof.
  induction fuel as [|fuel IH]; cbn [search]; intros st p Hok; [done|].
  destruct (pop (open_set st)) as [[cur rest]|]; [|done].
  case_bool_decide as Hb.
  - destruct (walk _ _ _ _ _) as [res|] eqn:Hw; [|done]. intros [= <-].
    rewrite Hb in Hw. eauto.
  - destruct (points g !! pn_id cur) as [pc|] eqn:Hpc.
    + destruct (visit_all _ _ _ _ _) as [st2|] eqn:Hv; [|done].
      apply IH. eapply visit_all_cf_edge; [exact Hpc|done| |exact Hv]. exact Hok.
    + apply IH. exact Hok.
Qed.

Lemma walk_is_walk (g : NavGraph F) fuel a cf : cf_edge g cf ->
  forall x acc r, is_walk g x acc -> walk fuel a cf x acc = Some r -> is_walk g a r.
Proof.
  intros Hcf. induction fuel as [|fuel IH]; simpl; intros x acc r Hacc; [done|].
  case_bool_decide as Hxa; [intros [= <-]; by subst|].
  destruct (cf !! x) as [q|] eqn:Hq; [|done].
  apply IH. simpl. split; [|done]. by apply Hcf.
Qed.

Lemma iter_add cf n m x : iter cf (n + m) x = iter cf n x ≫= (iter cf m).
Proof.
  revert x. induction n as [|n IH]; intros x; simpl; [done|].
  destruct (cf !! x); [apply IH|done].
Qed.

Lemma walk_iter fuel a cf : forall x acc r, walk fuel a cf x acc = Some r ->
  exists k, iter cf k x = Some a /\
    (forall i, (i < k)%nat -> exists y, iter cf i x = Some y /\ y ≠ a) /\
    r = rev (map (fun i => default 0 (iter cf i x)) (seq 0 k)) ++ acc.
Proof.
  induction fuel as [|fuel IH]; simpl; intros x acc r; [done|].
  case_bool_decide as Hxa.
  - intros [= <-]. exists 0%nat. split; [simpl; by rewrite Hxa|]. split; [lia|done].
  - destruct (cf !! x) as [q|] eqn:Hq; [|done]. intros Hw.
    destruct (IH _ _ _ Hw) as (k & Hk & Hne & ->). exists (S k).
    split; [simpl; by rewrite Hq|]. split.
    + intros [|i] Hi; simpl; [by eexists|]. rewrite Hq. apply Hne. lia.
    + cbn [seq map rev]. rewrite <- seq_shift, map_map. cbn [iter]. rewrite Hq.
      rewrite <- app_assoc. done.
Qed.

Lemma iter_no_repeat cf x a k i j y :
  iter cf k x = Some a ->
  (forall i, (i < k)%nat -> exists y, iter cf i x = Some y /\ y ≠ a) ->
  (i < j < k)%nat -> iter cf i x = Some y -> iter cf j x = Some y -> False.
Proof.
  intros Hk Hne Hij Hi Hj.
  assert (H1 : iter cf (i + (k - j)) x = iter cf (k - j) y) by (by rewrite iter_add, Hi).
  assert (H2 : iter cf (j + (k - j)) x = iter cf (k - j) y) by (by rewrite iter_add, Hj).
  replace (j + (k - j))%nat with k in H2 by lia.
  destruct (Hne (i + (k - j))%nat ltac:(lia)) as (z & Hz & Hza). congruence.
Qed.

Lemma walk_simple fuel a cf x r : walk fuel a cf x [] = Some r ->
  NoDup r /\ (a ∉ r) /\ ((r = [] /\ x = a) \/ exists q, r = q ++ [x]).
Proof.
  intros Hw. destruct (walk_iter fuel a cf x [] r Hw) as (k & Hk & Hne & ->).
  rewrite app_nil_r. set (f := fun i => default 0 (iter cf i x)).
  assert (Hf : forall i, (i < k)%nat -> iter cf i x = Some (f i) /\ f i ≠ a).
  { intros i Hi. destruct (Hne i Hi) as (y & Hy & Hya). unfold f. by rewrite Hy. }
  split; [|split].
  - apply NoDup_ListNoDup, NoDup_rev, NoDup_map_NoDup_ForallPairs; [|apply seq_NoDup].
    intros i j Hi Hj Heq. apply in_seq in Hi, Hj.
    destruct (Hf i ltac:(lia)) as [Hi' _], (Hf j ltac:(lia)) as [Hj' _].
    rewrite Heq in Hi'.
    destruct (Nat.lt_trichotomy i j) as [Hlt|[Heqij|Hlt]]; [|done|].
    + exfalso. exact (iter_no_repeat cf x a k i j (f j) Hk Hne ltac:(lia) Hi' Hj').
    + exfalso. exact (iter_no_repeat cf x a k j i (f j) Hk Hne ltac:(lia) Hj' Hi').
  - intros Hin. apply list_elem_of_In, in_rev, in_map_iff in Hin as (i & Hi & Hin).
    apply in_seq in Hin. destruct (Hf i ltac:(lia)) as [_ Hfa]. congruence.
  - destruct k as [|k].
    + left. simpl in Hk. split; [done|congruence].
    + right. cbn [seq map rev]. exists (rev (map f (seq 1 k))). done.
Qed.
End Walks.

Lemma find_path_walk {F : Type} `{!F32 F}
    (pop : list PathNode -> option (PathNode * list PathNode)) (alloc : Z -> bool)
    fuel (g : NavGraph F) a b p :
  find_path pop alloc fuel g a b = Some (Some p) ->
  is_walk g a p /\ NoDup p /\ (a ∉ p) /\ ((p = [] /\ a = b) \/ exists q, p = q ++ [b]).
Proof.
  intros Hf. destruct (find_path_found pop alloc fuel g a b p Hf) as (pa & pb & _ & _ & Hs).
  assert (H0 : cf_edge g (came_from (start_state g a b))).
  { intros k v. unfold start_state. cbn [came_from]. rewrite lookup_empty. done. }
  destruct (search_walk pop fuel g a b _ p H0 Hs) as (wf & cf & Hcf & Hw).
  destruct (walk_simple wf a cf b p Hw) as (Hnd & Ha & Hend).
  split; [|split; [done|split; [done|]]].
  - eapply walk_is_walk; [exact Hcf| |exact Hw]. done.
  - destruct Hend as [[-> ->]|Hq]; [by left|by right].
Qed.

(** Every path [find_path(a, b)] returns is a walk through the graph from
    [a]: its first id is a connection of [a] and each later id a connection
    of the one before.  It never lists [a] nor any waypoint twice, and it ends
    with [b]; it is empty only when [a = b]. *)
Theorem find_path_simple_walk {F : Type} `{!F32 F}
    (pop : list PathNode -> option (PathNode * list PathNode)) (alloc : Z -> bool)
    fuel (g : NavGraph F) a b p :
  find_path pop alloc fuel g a b = Some (Some p) ->
  is_walk g a p /\ NoDup p /\ (a ∉ p) /\ ((p = [] /\ a = b) \/ exists q, p = q ++ [b]).
Proof. apply find_path_walk. Qed.

Lemma find_path_simple_walk_witness :
  find_path min_pop (alloc_upto 1000000) 10 diamond 1 4 = Some (Some [2; 4]) /\
  (is_walk diamond 1 [2; 4] /\ NoDup [2; 4] /\ (1 ∉ [2; 4]) /\
   (([2; 4] = [] /\ 1 = 4) \/ exists q, [2; 4] = q ++ [4])).
Proof.
  assert (H : find_path min_pop (alloc_upto 1000000) 10 diamond 1 4 = Some (Some [2; 4])) by (vm_compute; reflexivity).
  split; [exact H|].
  exact (find_path_simple_walk min_pop (alloc_upto 1000000) 10 diamond 1 4 [2; 4] H).
Defined.

(** ** What the graph's calls do, entry by entry *)

Section GraphCalls.
Context {F : Type} `{!F32 F}.

(** [NavGraph::len] *)
Definition len (g : NavGraph F) : nat := size (points g).

(** [NavGraph::is_empty] *)
Definition is_empty (g : NavGraph F) : bool := bool_decide (points g = ∅).

Lemma graph_eq (g1 g2 : NavGraph F) :
  points g1 = points g2 -> highest_id g1 = highest_id g2 -> g1 = g2.
Proof. destruct g1, g2; simpl; congruence. Qed.

Lemma with_connections_twice (q : NavPoint F) c1 c2 :
  with_connections (with_connections q c1) c2 = with_connections q c2.
Proof. by destruct q. Qed.

Lemma connect_lookup (g : NavGraph F) a b j :
  has_node g a = true -> has_node g b = true ->
  points (connect_points g a b) !! j =
  (fun q => if decide (j = a) then with_connections q (set_insert b (connections q))
            else if decide (j = b) then with_connections q (set_insert a (connections q))
            else q) <$> points g !! j.
Proof.
  intros Ha Hb. unfold connect_points. rewrite Ha, Hb. simpl.
  rewrite !and_modify_lookup.
  destruct (points g !! j) as [q|]; simpl; [|by repeat case_decide].
  repeat case_decide; subst; simpl; try done.
  rewrite with_connections_twice. simpl. by rewrite set_insert_idem.
Qed.

Lemma and_modify_is_Some k (f : NavPoint F -> NavPoint F) m j :
  is_Some (and_modify k f m !! j) <-> is_Some (m !! j).
Proof. rewrite and_modify_lookup. case_decide; [apply fmap_is_Some|done]. Qed.

Lemma and_modify_size k (f : NavPoint F -> NavPoint F) m :
  size (and_modify k f m) = size m.
Proof.
  unfold and_modify. destruct (m !! k) eqn:E; [|done].
  apply map_size_insert_Some. by rewrite E.
Qed.

Lemma fold_and_modify_is_Some (f : Z -> NavPoint F -> NavPoint F) l : forall m j,
  is_Some (fold_left (fun m c => and_modify c (f c) m) l m !! j) <-> is_Some (m !! j).
Proof.
  induction l as [|c l IH]; intros m j; simpl; [done|].
  rewrite IH. apply and_modify_is_Some.
Qed.

Lemma fold_and_modify_size (f : Z -> NavPoint F -> NavPoint F) l : forall m,
  size (fold_left (fun m c => and_modify c (f c) m) l m) = size m.
Proof.
  induction l as [|c l IH]; intros m; simpl; [done|].
  rewrite IH. apply and_modify_size.
Qed.

Lemma remove_has_node (g : NavGraph F) i j :
  has_node (remove_point g i) j = if decide (j = i) then false else has_node g j.
Proof.
  unfold has_node. destruct (points g !! i) as [pi|] eqn:Hpi.
  - rewrite (remove_lookup g i pi j Hpi).
    case_decide; [apply bool_decide_eq_false; apply is_Some_None|].
    case_decide; [|done]. apply bool_decide_ext, fmap_is_Some.
  - unfold remove_point. rewrite Hpi. case_decide; [subst|done].
    rewrite Hpi. apply bool_decide_eq_false, is_Some_None.
Qed.


(** [n] calls of [occupy(i)] in a row; the number that succeeded and the
    graph afterwards. *)
Fixpoint occupy_n (g : NavGraph F) (i : Z) (n : nat) : nat * NavGraph F :=
  match n with
  | O => (O, g)
  | S n' =>
      let (r, g1) := occupy g i in
      let (k, g2) := occupy_n g1 i n' in
      ((if r then 1 else 0) + k, g2)%nat
  end.

(** The waypoint data that [move_travelers] must not touch: everything but
    the occupancy counters. *)
Definition shape (g : NavGraph F) : gmap Z (NavPoint F) :=
  (fun p => with_occupancy p 0) <$> points g.

Lemma shape_occupy (g : NavGraph F) i :
  shape (snd (occupy g i)) = shape g /\ highest_id (snd (occupy g i)) = highest_id g.
Proof.
  unfold occupy. destruct (points g !! i) as [p|] eqn:Hi; [|done].
  unfold np_occupy. destruct (np_can_occupy p); simpl; (split; [|done]);
    unfold shape; simpl; rewrite fmap_insert; apply insert_id;
    rewrite lookup_fmap, Hi; simpl; by destruct p.
Qed.

Lemma shape_unoccupy (g : NavGraph F) i :
  shape (unoccupy g i) = shape g /\ highest_id (unoccupy g i) = highest_id g.
Proof.
  unfold unoccupy, and_modify. destruct (points g !! i) as [p|] eqn:Hi; simpl; [|done].
  split; [|done]. unfold shape; simpl. rewrite fmap_insert. apply insert_id.
  rewrite lookup_fmap, Hi. simpl. by destruct p.
Qed.

Lemma shape_move_traveler dt (g : NavGraph F) tr tp tf :
  shape (fst (move_traveler dt g tr tp tf)) = shape g /\
  highest_id (fst (move_traveler dt g tr tp tf)) = highest_id g.
Proof.
  unfold move_traveler.
  destruct (path tr) as [p|]; [|done].
  destruct (_ <=? _)%nat; [done|].
  destruct (next_nav_point tp) as [n|]; simpl.
  - repeat match goal with
    | |- context [match get_nav_point ?g ?i with _ => _ end] => destruct (get_nav_point g i)
    end; simpl; try done.
    destruct (snaps _ _); simpl; [apply shape_unoccupy|done].
  - destruct (occupy g (nth (S (current_index tr)) p 0)) as [[|] g1] eqn:Ho; simpl; [|done].
    pose proof (shape_occupy g (nth (S (current_index tr)) p 0)) as [Hs Hh].
    rewrite Ho in Hs, Hh. simpl in Hs, Hh.
    repeat match goal with
    | |- context [match get_nav_point ?g ?i with _ => _ end] => destruct (get_nav_point g i)
    end; simpl; try done.
    destruct (snaps _ _); simpl; [|done].
    destruct (shape_unoccupy g1 (current_nav_point tp)) as [Hs' Hh']. split; congruence.
Qed.
End GraphCalls.

Lemma connect_has_node {F : Type} `{!F32 F} (g : NavGraph F) u v j :
  has_node (connect_points g u v) j = has_node g j.
Proof. unfold has_node. apply bool_decide_ext, connect_is_Some. Qed.

Lemma connect_highest_id {F : Type} `{!F32 F} (g : NavGraph F) u v :
  highest_id (connect_points g u v) = highest_id g.
Proof. unfold connect_points. by destruct (_ || _). Qed.

Lemma with_occupancy_twice {F : Type} (q : NavPoint F) k1 k2 :
  with_occupancy (with_occupancy q k1) k2 = with_occupancy q k2.
Proof. by destruct q. Qed.

(** [connect_points(a, b)] with [a] or [b] missing leaves the graph as it
    is.  With both present it adds [b] to [a]'s connections and [a] to [b]'s
    and changes nothing else: every other waypoint, every other field and
    [highest_id] stay as they were. *)
Theorem connect_points_effect {F : Type} `{!F32 F} (g : NavGraph F) (a b : Z) :
  (has_node g a = false \/ has_node g b = false -> connect_points g a b = g) /\
  (has_node g a = true -> has_node g b = true -> forall j,
     points (connect_points g a b) !! j =
     (fun q => if decide (j = a) then with_connections q (set_insert b (connections q))
               else if decide (j = b) then with_connections q (set_insert a (connections q))
               else q) <$> points g !! j) /\
  highest_id (connect_points g a b) = highest_id g.
Proof.
  split; [|split].
  - intros [H|H]; unfold connect_points; rewrite H; [done|]. by rewrite orb_true_r.
  - intros Ha Hb j. by apply connect_lookup.
  - apply connect_highest_id.
Qed.

(** [connect_points] is symmetric in its two ids, and connecting the same
    pair a second time changes nothing. *)
Theorem connect_points_compose {F : Type} `{!F32 F} (g : NavGraph F) (a b : Z) :
  connect_points g a b = connect_points g b a /\
  connect_points (connect_points g a b) a b = connect_points g a b.
Proof.
  destruct (has_node g a) eqn:Ha, (has_node g b) eqn:Hb.
  2-4: assert (E1 : connect_points g a b = g) by (unfold connect_points; rewrite Ha, Hb; reflexivity);
       assert (E2 : connect_points g b a = g) by (unfold connect_points; rewrite Ha, Hb; reflexivity);
       split; [congruence|rewrite E1; exact E1].
  split; apply graph_eq; rewrite ?connect_highest_id; try done; apply map_eq; intros j.
  - rewrite !connect_lookup by done.
    destruct (points g !! j); simpl; [|done]. f_equal. repeat case_decide; subst; done.
  - rewrite !connect_lookup by (rewrite ?connect_has_node; done).
    destruct (points g !! j) as [q|]; simpl; [|done]. f_equal.
    repeat case_decide; subst; try done; rewrite with_connections_twice; simpl;
      by rewrite set_insert_idem.
Qed.

(** [remove_point(i)] of an absent id leaves the graph as it is.  Afterwards
    [i] is absent, every other id is present exactly when it was before, and
    [highest_id] is unchanged.  On a well-formed graph (symmetric, closed,
    keyed by id) the result is again well formed and no remaining waypoint
    lists [i] as a connection. *)
Theorem remove_point_effect {F : Type} `{!F32 F} (g : NavGraph F) (i : Z) :
  (has_node g i = false -> remove_point g i = g) /\
  (forall j, has_node (remove_point g i) j = if decide (j = i) then false else has_node g j) /\
  highest_id (remove_point g i) = highest_id g /\
  (graph_wf g -> graph_wf (remove_point g i) /\
     forall j q, points (remove_point g i) !! j = Some q -> i ∉ connections q).
Proof.
  split; [|split; [apply remove_has_node|split]].
  - unfold has_node, remove_point. intros H. apply bool_decide_eq_false in H.
    destruct (points g !! i) eqn:E; [|done]. exfalso. apply H. by eexists.
  - unfold remove_point. by destruct (points g !! i).
  - intros Hwf. pose proof (remove_wf g i Hwf) as Hwf'. split; [done|].
    intros j q Hq Hin. destruct Hwf' as (_ & Hc & _).
    destruct (Hc j q i Hq Hin) as [x Hx].
    pose proof (remove_has_node g i i) as Hr. rewrite decide_True in Hr by done.
    unfold has_node in Hr. rewrite Hx in Hr.
    rewrite bool_decide_eq_true_2 in Hr; [discriminate|by eexists].
Qed.

(** [add_nav_point(p)] stores [p] under its id (replacing any waypoint
    stored there), adds [p.id] to the connections of each other waypoint
    that [p] lists, leaves every other waypoint as it was, and sets
    [highest_id] to the larger of its old value and [p.id]. *)
Theorem add_nav_point_effect {F : Type} `{!F32 F} (g : NavGraph F) (p : NavPoint F) :
  points (add_nav_point g p) !! id p = Some p /\
  (forall j, j ≠ id p -> points (add_nav_point g p) !! j =
     (fun q => if decide (j ∈ connections p)
               then with_connections q (set_insert (id p) (connections q)) else q)
     <$> points g !! j) /\
  highest_id (add_nav_point g p) = Z.max (id p) (highest_id g).
Proof.
  split; [|split].
  - rewrite add_lookup. by rewrite decide_True.
  - intros j Hj. rewrite add_lookup, decide_False by done.
    case_decide; [done|]. by destruct (points g !! j).
  - unfold add_nav_point. simpl. rewrite Z.gtb_ltb.
    destruct (Z.ltb_spec (highest_id g) (id p)); lia.
Qed.

(** [len] counts the waypoints and [is_empty] holds exactly when it is 0:
    [add_nav_point] adds one unless the id was present, [remove_point]
    takes one away when the id was present, and [connect_points], [occupy]
    and [unoccupy] leave the count as it is. *)
Theorem len_counts {F : Type} `{!F32 F} (g : NavGraph F) (p : NavPoint F) (i j : Z) :
  (is_empty g = true <-> len g = 0%nat) /\
  len (add_nav_point g p) = (if has_node g (id p) then len g else S (len g)) /\
  len (remove_point g i) = (if has_node g i then pred (len g) else len g) /\
  len (connect_points g i j) = len g /\
  len (snd (occupy g i)) = len g /\
  len (unoccupy g i) = len g.
Proof.
  unfold len. split; [|split; [|split; [|split; [|split]]]].
  - unfold is_empty. rewrite bool_decide_eq_true, map_size_empty_iff. done.
  - unfold add_nav_point. cbn [points]. rewrite map_size_insert.
    pose proof (fold_and_modify_is_Some
      (fun _ b => with_connections b (set_insert (id p) (connections b)))
      (connections p) (points g) (id p)) as Hs.
    rewrite (fold_and_modify_size
      (fun _ b => with_connections b (set_insert (id p) (connections b)))).
    unfold has_node.
    destruct (fold_left _ _ _ !! id p) eqn:E1; destruct (points g !! id p) eqn:E2; simpl.
    + done.
    + exfalso. apply (is_Some_None (A := NavPoint F)), Hs. by eexists.
    + exfalso. apply (is_Some_None (A := NavPoint F)), Hs. by eexists.
    + done.
  - unfold remove_point, has_node. destruct (points g !! i) as [pi|] eqn:E; simpl; [|done].
    rewrite (fold_and_modify_size
      (fun _ b => with_connections b (set_remove (id pi) (connections b)))).
    by rewrite map_size_delete, E.
  - unfold connect_points. destruct (_ || _); [done|]. simpl. by rewrite !and_modify_size.
  - unfold occupy. destruct (points g !! i) as [q|] eqn:E; [|done].
    destruct (np_occupy q). simpl. apply map_size_insert_Some. by rewrite E.
  - unfold unoccupy. simpl. apply and_modify_size.
Qed.

(** [occupy] and [unoccupy] undo each other on a waypoint [p] whose
    occupancy is within [0 ..= max_occupancy <= u32::MAX]: when [p] has
    room, [occupy] then [unoccupy] gives back the same graph; when [p] is
    occupied at least once, [unoccupy] then [occupy] succeeds and gives back
    the same graph. *)
Theorem occupy_unoccupy_inverse {F : Type} `{!F32 F} (g : NavGraph F) (i : Z) (p : NavPoint F)
    (Hp : points g !! i = Some p)
    (Hr : 0 <= current_occupancy p <= max_occupancy p) (Hm : max_occupancy p <= u32_max) :
  (current_occupancy p < max_occupancy p -> unoccupy (snd (occupy g i)) i = g) /\
  (1 <= current_occupancy p -> occupy (unoccupy g i) i = (true, g)).
Proof.
  unfold u32_max in Hm. split; intros Hc.
  - unfold occupy. rewrite Hp. unfold np_occupy, np_can_occupy.
    rewrite (proj2 (Z.ltb_lt _ _) Hc). cbn [snd].
    unfold unoccupy, and_modify, with_points. cbn [points highest_id].
    rewrite lookup_insert_eq, insert_insert_eq.
    assert (E : np_unoccupy (with_occupancy p (current_occupancy p + 1)) = p).
    { unfold np_unoccupy, u32_sub. rewrite with_occupancy_twice. cbn [current_occupancy with_occupancy].
      replace (current_occupancy p + 1 - 1) with (current_occupancy p) by lia.
      rewrite Z.mod_small by lia. rewrite Z.max_l by lia. by destruct p. }
    rewrite E, insert_id by done. by destruct g.
  - unfold unoccupy, and_modify. rewrite Hp. unfold occupy, with_points. cbn [points highest_id].
    rewrite lookup_insert_eq.
    assert (Ec : current_occupancy (np_unoccupy p) = current_occupancy p - 1).
    { unfold np_unoccupy, u32_sub. cbn [current_occupancy with_occupancy].
      rewrite Z.mod_small by lia. lia. }
    unfold np_occupy, np_can_occupy. rewrite Ec.
    replace (max_occupancy (np_unoccupy p)) with (max_occupancy p) by reflexivity.
    rewrite (proj2 (Z.ltb_lt _ _)) by lia. cbn [snd fst].
    rewrite insert_insert_eq.
    assert (E : with_occupancy (np_unoccupy p) (current_occupancy p - 1 + 1) = p).
    { unfold np_unoccupy. rewrite with_occupancy_twice.
      replace (current_occupancy p - 1 + 1) with (current_occupancy p) by lia.
      apply with_occupancy_same. }
    rewrite E, insert_id by done. by destruct g.
Qed.

Lemma occupy_unoccupy_inverse_witness :
  (current_occupancy (with_connections (np 1 0 0 0) [2; 3]) <
     max_occupancy (with_connections (np 1 0 0 0) [2; 3]) ->
   unoccupy (snd (occupy diamond 1)) 1 = diamond) /\
  (1 <= current_occupancy (with_connections (np 1 0 0 0) [2; 3]) ->
   occupy (unoccupy diamond 1) 1 = (true, diamond)).
Proof.
  exact (occupy_unoccupy_inverse diamond 1 (with_connections (np 1 0 0 0) [2; 3])
           ltac:(vm_compute; reflexivity) ltac:(simpl; lia) ltac:(simpl; unfold u32_max; lia)).
Defined.

(** [n] calls of [occupy(i)] in a row on a waypoint [p] with
    [current_occupancy <= max_occupancy] succeed [min(n, max - current)]
    times: the first ones until the waypoint is full, then none.  The
    waypoint's occupancy goes up by that number; nothing else changes. *)
Theorem occupy_n_capacity {F : Type} `{!F32 F} (g : NavGraph F) (i : Z) (p : NavPoint F) (n : nat)
    (Hp : points g !! i = Some p) (Hc : current_occupancy p <= max_occupancy p) :
  Z.of_nat (fst (occupy_n g i n)) = Z.min (Z.of_nat n) (max_occupancy p - current_occupancy p) /\
  points (snd (occupy_n g i n)) =
    <[i := with_occupancy p (current_occupancy p + Z.of_nat (fst (occupy_n g i n)))]> (points g) /\
  highest_id (snd (occupy_n g i n)) = highest_id g.
Proof.
  revert g p Hp Hc. induction n as [|n IH]; intros g p Hp Hc.
  - simpl. split; [lia|split; [|done]].
    rewrite Z.add_0_r, with_occupancy_same. symmetry. by apply insert_id.
  - cbn [occupy_n].
    destruct (Z.ltb_spec (current_occupancy p) (max_occupancy p)) as [Hlt|Hge].
    + set (p' := with_occupancy p (current_occupancy p + 1)).
      set (g1 := with_points g (<[i:=p']> (points g))).
      assert (Ho : occupy g i = (true, g1)).
      { unfold occupy. rewrite Hp. unfold np_occupy, np_can_occupy.
        by rewrite (proj2 (Z.ltb_lt _ _) Hlt). }
      rewrite Ho.
      assert (Hp' : points g1 !! i = Some p') by (unfold g1, with_points; simpl; by rewrite lookup_insert_eq).
      destruct (IH g1 p' Hp' ltac:(unfold p'; simpl; lia)) as (Hk & Hpts & Hhi).
      destruct (occupy_n g1 i n) as [k g2]. simpl in *.
      split; [unfold p' in Hk; simpl in Hk; lia|split].
      * rewrite Hpts. rewrite insert_insert_eq.
        unfold p'. rewrite with_occupancy_twice. f_equal. f_equal. lia.
      * rewrite Hhi. done.
    + assert (Ho : occupy g i = (false, g)).
      { unfold occupy. rewrite Hp. unfold np_occupy, np_can_occupy.
        rewrite (proj2 (Z.ltb_ge _ _) Hge). cbn. rewrite insert_id by done.
        by rewrite with_points_self. }
      rewrite Ho.
      destruct (IH g p Hp Hc) as (Hk & Hpts & Hhi).
      destruct (occupy_n g i n) as [k g2]. simpl in *.
      split; [lia|split; [|done]]. rewrite Hpts. done.
Qed.

Lemma occupy_n_capacity_witness :
  fst (occupy_n diamond 1 3) = 1%nat /\
  (Z.of_nat (fst (occupy_n diamond 1 3)) =
     Z.min (Z.of_nat 3) (max_occupancy (with_connections (np 1 0 0 0) [2; 3]) -
                         current_occupancy (with_connections (np 1 0 0 0) [2; 3])) /\
   points (snd (occupy_n diamond 1 3)) =
     <[1 := with_occupancy (with_connections (np 1 0 0 0) [2; 3])
              (current_occupancy (with_connections (np 1 0 0 0) [2; 3]) +
               Z.of_nat (fst (occupy_n diamond 1 3)))]> (points diamond) /\
   highest_id (snd (occupy_n diamond 1 3)) = highest_id diamond).
Proof.
  split; [vm_compute; reflexivity|].
  exact (occupy_n_capacity diamond 1 (with_connections (np 1 0 0 0) [2; 3]) 3
           ltac:(vm_compute; reflexivity) ltac:(simpl; lia)).
Defined.

(** A tick of [move_travelers] changes nothing of the graph but occupancy
    counters: no waypoint is added or removed, and ids, locations, speed
    modifiers, connections, capacities and [highest_id] stay as they were. *)
Theorem move_travelers_shape {F : Type} `{!F32 F} (dt : F) (g : NavGraph F)
    (ts : list (bool * AutoTraveler F * TravelerPosition * Transform F)) :
  shape (fst (move_travelers dt g ts)) = shape g /\
  highest_id (fst (move_travelers dt g ts)) = highest_id g.
Proof.
  revert g. induction ts as [|[[[paused tr] tp] tf] ts IH]; intros g; simpl; [done|].
  destruct paused.
  - specialize (IH g). destruct (move_travelers dt g ts) as [g' os]. exact IH.
  - destruct (move_traveler dt g tr tp tf) as [g1 o] eqn:E1.
    specialize (IH g1). destruct (move_travelers dt g1 ts) as [g' os]. simpl in *.
    pose proof (shape_move_traveler dt g tr tp tf) as Hs. rewrite E1 in Hs. simpl in Hs.
    destruct IH, Hs. split; congruence.
Qed.



(** [compute_initial_path] stores what [find_path(origin, destination)]
    returns.  When a path is found, the traveler's path becomes that path: a
    walk through the graph from the origin with no repeated id, not listing
    the origin, ending with the destination (empty only when origin and
    destination are equal); the traveler is placed at its origin with no
    reservation.  When no path is found the traveler is left as it was and
    gets no position (it is marked [NoPath]). *)
Theorem compute_initial_path_stores {F : Type} `{!F32 F}
    (pop : list PathNode -> option (PathNode * list PathNode)) (alloc : Z -> bool)
    (fuel : nat) (g : NavGraph F) (tr : AutoTraveler F) :
  match compute_initial_path pop alloc fuel g tr with
  | Some (tr', Some tp) =>
      exists p, tr' = set_path tr (Some p) /\
        tp = mkTravelerPosition (origin tr) None /\
        is_walk g (origin tr) p /\ NoDup p /\ (origin tr ∉ p) /\
        ((p = [] /\ origin tr = destination tr) \/ exists q, p = q ++ [destination tr])
  | Some (tr', None) =>
      tr' = tr /\ find_path pop alloc fuel g (origin tr) (destination tr) = Some None
  | None => find_path pop alloc fuel g (origin tr) (destination tr) = None
  end.
Proof.
  unfold compute_initial_path.
  destruct (find_path pop alloc fuel g (origin tr) (destination tr)) as [[p|]|] eqn:E; [|done|done].
  exists p. split; [done|split; [done|]]. by apply (find_path_walk pop alloc fuel).
Qed.

(** ** [find_path] always returns on a closed graph without cost overflow *)

Lemma NoDup_size_le {A : Type} (l : list Z) (m : gmap Z A) :
  NoDup l -> (forall y, y ∈ l -> is_Some (m !! y)) -> (length l <= size m)%nat.
Proof.
  intros Hnd Hin. rewrite <- length_map_to_list, <- (length_map fst).
  apply NoDup_incl_length; [by apply NoDup_ListNoDup|].
  intros y Hy. apply list_elem_of_In in Hy. destruct (Hin y Hy) as [v Hv].
  apply in_map_iff. exists (y, v). split; [done|].
  apply list_elem_of_In. by apply elem_of_map_to_list.
Qed.

Lemma iter_before cf m x a : cf !! a = None -> iter cf m x = Some a ->
  forall i, (i < m)%nat -> exists y, iter cf i x = Some y /\ y ≠ a /\ is_Some (cf !! y).
Proof.
  intros Ha Hm i Hi.
  replace m with (i + (S (m - i - 1)))%nat in Hm by lia.
  rewrite iter_add in Hm. destruct (iter cf i x) as [y|]; simpl in Hm; [|done].
  destruct (cf !! y) as [v|] eqn:Hy; [|done].
  exists y. split; [done|]. split; [intros ->; congruence|by eexists].
Qed.

Lemma iter_short cf m x a : cf !! a = None -> iter cf m x = Some a -> (m <= size cf)%nat.
Proof.
  intros Ha Hm. pose proof (iter_before cf m x a Ha Hm) as Hb.
  set (f := fun i => default 0 (iter cf i x)).
  assert (Hf : forall i, (i < m)%nat -> iter cf i x = Some (f i) /\ f i ≠ a /\ is_Some (cf !! f i)).
  { intros i Hi. destruct (Hb i Hi) as (y & Hy & Hya & Hk). unfold f. by rewrite Hy. }
  rewrite <- (length_seq m 0), <- (length_map f).
  apply NoDup_size_le.
  - apply NoDup_ListNoDup, NoDup_map_NoDup_ForallPairs; [|apply seq_NoDup].
    intros i j Hi Hj Heq. apply in_seq in Hi, Hj.
    destruct (Hf i ltac:(lia)) as [Hi' _], (Hf j ltac:(lia)) as [Hj' _].
    rewrite Heq in Hi'.
    assert (Hne : forall i, (i < m)%nat -> exists y, iter cf i x = Some y /\ y ≠ a).
    { intros k Hk. destruct (Hf k Hk) as (? & ? & _). eauto. }
    destruct (Nat.lt_trichotomy i j) as [Hlt|[Heqij|Hlt]]; [|done|].
    + exfalso. exact (iter_no_repeat cf x a m i j (f j) Hm Hne ltac:(lia) Hi' Hj').
    + exfalso. exact (iter_no_repeat cf x a m j i (f j) Hm Hne ltac:(lia) Hj' Hi').
  - intros y Hy. apply list_elem_of_In, in_map_iff in Hy as (i & <- & Hi).
    apply in_seq in Hi. apply (Hf i). lia.
Qed.

Lemma walk_reaches fuel a cf : forall m x acc, iter cf m x = Some a -> (m < fuel)%nat ->
  exists r, walk fuel a cf x acc = Some r.
Proof.
  induction fuel as [|fuel IH]; intros m x acc Hm Hf; [lia|]. simpl.
  case_bool_decide as Hxa; [eauto|].
  destruct m as [|m]; simpl in Hm; [congruence|].
  destruct (cf !! x) as [v|]; [|done]. apply (IH m); [done|lia].
Qed.

Lemma iter_update_avoid (cf : gmap Z Z) n cur a m : forall x,
  (forall i y, iter cf i x = Some y -> y ≠ n) -> iter cf m x = Some a ->
  iter (<[n := cur]> cf) m x = Some a.
Proof.
  induction m as [|m IH]; intros x Hav Hm; [done|]. simpl in *.
  assert (Hxn : x ≠ n) by (apply (Hav 0%nat); done).
  rewrite lookup_insert_ne by done.
  destruct (cf !! x) as [v|] eqn:Hx; [|done].
  apply IH; [|done]. intros i y Hy. apply (Hav (S i)). simpl. by rewrite Hx.
Qed.

Lemma iter_update_reach (cf : gmap Z Z) n cur a m0 :
  iter (<[n := cur]> cf) m0 n = Some a ->
  forall m x, iter cf m x = Some a -> exists m', iter (<[n := cur]> cf) m' x = Some a.
Proof.
  intros Hn. induction m as [|m IH]; intros x Hm.
  - exists 0%nat. done.
  - destruct (decide (x = n)) as [->|Hxn]; [eauto|].
    simpl in Hm. destruct (cf !! x) as [v|] eqn:Hx; [|done].
    destruct (IH v Hm) as [m' Hm']. exists (S m'). simpl.
    by rewrite lookup_insert_ne, Hx.
Qed.

Lemma default_last_cons {A : Type} (l : list A) : forall (x y : A),
  default x (last (y :: l)) = default y (last l).
Proof.
  induction l as [|z l IH]; intros x y; [done|].
  rewrite last_cons_cons, (IH x z), (IH y z). done.
Qed.

Section Total.
Context {F : Type} `{!F32 F}.
Variable pop : list PathNode -> option (PathNode * list PathNode).
Hypothesis Hpop : pop_ok pop.
Variable g : NavGraph F.
Variable a : Z.
Variable D : Z.
Hypothesis Ha : is_Some (points g !! a).
Hypothesis Hkey : keyed_by_id g.
Hypothesis Hcl : closed g.
Hypothesis HD : forall x y px, points g !! x = Some px -> y ∈ connections px -> h_func g x y <= D.
Hypothesis HN : Z.of_nat (size (points g)) * D <= u32_max.

(** The cost of a walk, summed with [h_func] edge by edge. *)
Fixpoint pcost (x : Z) (l : list Z) : Z :=
  match l with
  | [] => 0
  | y :: l' => h_func g x y + pcost y l'
  end.

(** Every node of a walk has a [g_score] no larger than the cost of the
    walk up to it. *)
Fixpoint hist_ok (gs : gmap Z Z) (x : Z) (c : Z) (l : list Z) : Prop :=
  match l with
  | [] => True
  | y :: l' => (exists gy, gs !! y = Some gy /\ gy <= c + h_func g x y) /\
               hist_ok gs y (c + h_func g x y) l'
  end.

Definition gle (gs' gs : gmap Z Z) : Prop :=
  forall y gy, gs !! y = Some gy -> exists gy', gs' !! y = Some gy' /\ gy' <= gy.

(** The invariant of the search loop: scores of reached nodes are the
    costs of simple walks from [a], predecessor links decrease the score
    and lead back to [a]. *)
Definition TI (st : SearchState) : Prop :=
  g_score st !! a = Some 0 /\
  (forall x, x ∈ open_set st -> pn_id x = a \/ is_Some (came_from st !! pn_id x)) /\
  (forall k v, came_from st !! k = Some v -> k ≠ a /\ (v = a \/ is_Some (came_from st !! v)) /\
     exists gk gv, g_score st !! k = Some gk /\ g_score st !! v = Some gv /\
                   gv + h_func g v k <= gk) /\
  (forall k, k = a \/ is_Some (came_from st !! k) ->
     exists P, NoDup (a :: P) /\ last (a :: P) = Some k /\ is_walk g a P /\
       (forall y, y ∈ P -> is_Some (points g !! y)) /\
       hist_ok (g_score st) a 0 P /\ g_score st !! k = Some (pcost a P)) /\
  (forall k, is_Some (came_from st !! k) -> exists m, iter (came_from st) m k = Some a).

Lemma pcost_nonneg l : forall x, 0 <= pcost x l.
Proof.
  induction l as [|y l IH]; intros x; simpl; [lia|].
  pose proof (h_func_range g x y). pose proof (IH y). lia.
Qed.

Lemma pcost_app l : forall x n, pcost x (l ++ [n]) = pcost x l + h_func g (default x (last l)) n.
Proof.
  induction l as [|y l IH]; intros x n; simpl; [lia|].
  rewrite IH, (default_last_cons l x y). lia.
Qed.

Lemma hist_mono gs gs' : gle gs' gs -> forall l x c, hist_ok gs x c l -> hist_ok gs' x c l.
Proof.
  intros Hle. induction l as [|y l IH]; simpl; intros x c; [done|].
  intros [(gy & Hy & Hc) Hl]. split; [|by apply IH].
  destruct (Hle y gy Hy) as (gy' & Hy' & Hle'). exists gy'. split; [done|lia].
Qed.

Lemma hist_app gs l : forall x c n gn, hist_ok gs x c l -> gs !! n = Some gn ->
  gn <= c + pcost x l + h_func g (default x (last l)) n -> hist_ok gs x c (l ++ [n]).
Proof.
  induction l as [|y l IH]; simpl; intros x c n gn Hl Hn Hc.
  - split; [|done]. exists gn. split; [done|lia].
  - destruct Hl as [Hy Hl]. split; [done|]. apply (IH y _ n gn Hl Hn).
    rewrite (default_last_cons l x y) in Hc. lia.
Qed.

Lemma hist_bound gs l : forall x c y, hist_ok gs x c l -> y ∈ l ->
  exists gy, gs !! y = Some gy /\ gy <= c + pcost x l.
Proof.
  induction l as [|z l IH]; simpl; intros x c y Hl Hy; [by apply not_elem_of_nil in Hy|].
  destruct Hl as [(gz & Hz & Hc) Hl]. apply elem_of_cons in Hy as [->|Hy].
  - exists gz. split; [done|]. pose proof (pcost_nonneg l z). lia.
  - destruct (IH _ _ y Hl Hy) as (gy & ? & ?). exists gy. split; [done|lia].
Qed.

Lemma pcost_bound l : forall x, is_walk g x l -> pcost x l <= Z.of_nat (length l) * D.
Proof.
  induction l as [|y l IH]; intros x Hw; simpl; [lia|].
  destruct Hw as [(px & Hx & Hy) Hw].
  pose proof (HD x y px Hx Hy). pose proof (IH y Hw).
  rewrite Nat2Z.inj_succ, Z.mul_succ_l. lia.
Qed.

Lemma is_walk_app l : forall x n pz, is_walk g x l ->
  points g !! default x (last l) = Some pz -> n ∈ connections pz -> is_walk g x (l ++ [n]).
Proof.
  induction l as [|y l IH]; simpl; intros x n pz Hw Hz Hn.
  - split; [|done]. eauto.
  - destruct Hw as [Hy Hw]. split; [done|]. apply (IH y n pz Hw); [|done].
    by rewrite <- (default_last_cons l x y).
Qed.

Lemma last_default P k : last (a :: P) = Some k -> default a (last P) = k.
Proof. intros H. by rewrite <- (default_last_cons P a a), H. Qed.

Lemma path_length P : NoDup (a :: P) -> (forall y, y ∈ P -> is_Some (points g !! y)) ->
  (S (length P) <= size (points g))%nat.
Proof.
  intros Hnd Hp. apply (NoDup_size_le (a :: P)); [done|].
  intros y Hy. apply elem_of_cons in Hy as [->|Hy]; [done|by apply Hp].
Qed.

Lemma iter_g_mono st : TI st -> forall m x y gx, iter (came_from st) m x = Some y ->
  g_score st !! x = Some gx -> exists gy, g_score st !! y = Some gy /\ gy <= gx.
Proof.
  intros (_ & _ & T3 & _). induction m as [|m IH]; simpl; intros x y gx Hm Hx.
  - injection Hm as <-. eauto with lia.
  - destruct (came_from st !! x) as [v|] eqn:Hv; [|done].
    destruct (T3 x v Hv) as (_ & _ & gk & gv & Hgk & Hgv & Hle).
    rewrite Hx in Hgk. injection Hgk as <-.
    destruct (IH v y gv Hm Hgv) as (gy & Hgy & Hle').
    pose proof (h_func_range g v x). exists gy. split; [done|lia].
Qed.

Lemma TI_extend st gs' : TI st ->
  (forall k gk, g_score st !! k = Some gk -> gs' !! k = Some gk) ->
  TI (mkSearchState (open_set st) (search_ids st) (came_from st) gs' (f_score st)).
Proof.
  intros (T1 & T2 & T3 & T4 & T5) Hgs.
  assert (Hle : gle gs' (g_score st)) by (intros y gy Hy; exists gy; split; [by apply Hgs|lia]).
  split; [by apply Hgs|]. split; [done|]. split; [|split]; cbn [g_score came_from].
  - intros k v Hkv. destruct (T3 k v Hkv) as (Hka & Hv & gk & gv & Hgk & Hgv & Hl).
    split; [done|]. split; [done|]. exists gk, gv. split; [by apply Hgs|]. split; [by apply Hgs|done].
  - intros k Hk. destruct (T4 k Hk) as (P & H1 & H2 & H3 & H4 & H5 & H6).
    exists P. repeat split; try done; [by apply (hist_mono (g_score st))|by apply Hgs].
  - done.
Qed.

Lemma visit_TI b cur pc st nid : TI st -> (cur = a \/ is_Some (came_from st !! cur)) ->
  points g !! cur = Some pc -> nid ∈ connections pc ->
  exists st', visit g b cur st nid = Some st' /\ TI st' /\
    (forall k, is_Some (came_from st !! k) -> is_Some (came_from st' !! k)).
Proof.
  intros HT Hcur Hpc Hn.
  destruct (Hcl cur pc nid Hpc Hn) as [nb Hnb].
  assert (Hid : id nb = nid) by (by apply Hkey).
  pose proof HT as (T1 & T2 & T3 & T4 & T5).
  destruct (T4 cur Hcur) as (Pc & Hnd & Hlast & Hw & Hpres & Hh & Hgc).
  unfold visit. rewrite Hnb.
  destruct (np_can_occupy nb); simpl; [|eexists; split; [done|]; split; [exact HT|done]].
  rewrite Hgc, Hid.
  pose proof (pcost_nonneg Pc a) as Hc0.
  pose proof (h_func_range g cur nid) as Hh0.
  assert (Hbound : pcost a Pc + h_func g cur nid <= u32_max).
  { pose proof (pcost_bound Pc a Hw). pose proof (path_length Pc Hnd Hpres) as Hl.
    pose proof (HD cur nid pc Hpc Hn).
    assert (Z.of_nat (S (length Pc)) * D <= Z.of_nat (size (points g)) * D)
      by (apply Z.mul_le_mono_nonneg_r; lia).
    rewrite Nat2Z.inj_succ, Z.mul_succ_l in H1. lia. }
  rewrite (u32_add_small (pcost a Pc) (h_func g cur nid)) by (unfold u32_max in *; lia).
  set (gc := pcost a Pc) in *.
  set (t := gc + h_func g cur nid).
  set (gn := default u32_max (g_score st !! nid)).
  destruct (t <? gn) eqn:Hlt.
  - apply Z.ltb_lt in Hlt.
    assert (Hgn : forall gy, g_score st !! nid = Some gy -> t < gy).
    { intros gy Hy. unfold gn in Hlt. by rewrite Hy in Hlt. }
    assert (Hna : nid ≠ a) by (intros ->; specialize (Hgn 0 T1); unfold t in Hgn; lia).
    assert (Hnc : nid ≠ cur) by (intros ->; specialize (Hgn gc Hgc); unfold t in Hgn; lia).
    assert (HnP : nid ∉ Pc).
    { intros Hin. destruct (hist_bound _ Pc a 0 nid Hh Hin) as (gy & Hy & Hle).
      specialize (Hgn gy Hy). unfold t, gc in *. lia. }
    assert (Hav : forall i y, iter (came_from st) i cur = Some y -> y ≠ nid).
    { intros i y Hi ->. destruct (iter_g_mono st HT i cur nid gc Hi Hgc) as (gy & Hy & Hle).
      specialize (Hgn gy Hy). unfold t in Hgn. lia. }
    set (cf' := <[nid := cur]> (came_from st)).
    set (gs' := <[nid := t]> (<[nid := gn]> (g_score st))).
    assert (Hgs' : gs' = <[nid := t]> (g_score st)) by (unfold gs'; apply insert_insert_eq).
    assert (Hgle : gle gs' (g_score st)).
    { intros y gy Hy. rewrite Hgs'. destruct (decide (y = nid)) as [->|Hyn].
      - rewrite lookup_insert_eq. exists t. split; [done|]. specialize (Hgn gy Hy). lia.
      - rewrite lookup_insert_ne by done. exists gy. split; [done|lia]. }
    assert (HgsN : forall k, k ≠ nid -> gs' !! k = g_score st !! k)
      by (intros k Hk; rewrite Hgs', lookup_insert_ne; done).
    assert (HcfN : forall k, k ≠ nid -> cf' !! k = came_from st !! k)
      by (intros k Hk; unfold cf'; rewrite lookup_insert_ne; done).
    assert (Hkeys : forall k, is_Some (came_from st !! k) -> is_Some (cf' !! k)).
    { intros k Hk. destruct (decide (k = nid)) as [->|Hkn].
      - unfold cf'. rewrite lookup_insert_eq. by eexists.
      - by rewrite HcfN. }
    assert (Hcur' : cur = a \/ is_Some (cf' !! cur))
      by (destruct Hcur as [->|Hc]; [by left|right; by apply Hkeys]).
    assert (HT' : forall op ids fs,
      (forall x, x ∈ op -> pn_id x = a \/ is_Some (cf' !! pn_id x)) ->
      TI (mkSearchState op ids cf' gs' fs)).
    { intros op ids fs Hop. split; [|split; [exact Hop|split; [|split]]];
        cbn [g_score came_from open_set].
      - rewrite HgsN by done. exact T1.
      - intros k v Hkv. destruct (decide (k = nid)) as [->|Hkn].
        + unfold cf' in Hkv. rewrite lookup_insert_eq in Hkv. injection Hkv as <-.
          split; [done|]. split; [done|].
          exists t, gc. split; [rewrite Hgs'; apply lookup_insert_eq|].
          split; [rewrite HgsN by done; exact Hgc|]. unfold t. lia.
        + rewrite HcfN in Hkv by done.
          destruct (T3 k v Hkv) as (Hka & Hv & gk & gv & Hgk & Hgv & Hle).
          split; [done|]. split; [destruct Hv as [->|Hv]; [by left|right; by apply Hkeys]|].
          destruct (Hgle v gv Hgv) as (gv' & Hgv' & Hle').
          exists gk, gv'. split; [rewrite HgsN by done; exact Hgk|]. split; [done|lia].
      - intros k Hk. destruct (decide (k = nid)) as [->|Hkn].
        + exists (Pc ++ [nid]). apply NoDup_cons in Hnd as [HaP HndP].
          pose proof (last_default Pc cur Hlast) as Hdl.
          split; [|split; [|split; [|split; [|split]]]].
          * constructor.
            -- rewrite elem_of_app, list_elem_of_singleton. intros [?|?]; [done|congruence].
            -- apply NoDup_app. split; [done|]. split; [|apply NoDup_singleton].
               intros x Hx. rewrite list_elem_of_singleton. intros ->. done.
          * by rewrite app_comm_cons, last_snoc.
          * apply (is_walk_app Pc a nid pc Hw); [by rewrite Hdl|done].
          * intros y Hy. apply elem_of_app in Hy as [Hy|Hy]; [by apply Hpres|].
            apply list_elem_of_singleton in Hy as ->. by rewrite Hnb.
          * apply (hist_app gs' Pc a 0 nid t); [by apply (hist_mono (g_score st))| |].
            -- rewrite Hgs'. apply lookup_insert_eq.
            -- rewrite Hdl. unfold t, gc. lia.
          * rewrite pcost_app, Hdl, Hgs', lookup_insert_eq. done.
        + assert (Hk' : k = a \/ is_Some (came_from st !! k))
            by (destruct Hk as [?|Hk]; [by left|right; by rewrite <- HcfN]).
          destruct (T4 k Hk') as (P & H1 & H2 & H3 & H4 & H5 & H6).
          exists P. repeat split; try done; [by apply (hist_mono (g_score st))|by rewrite HgsN].
      - intros k Hk.
        assert (Hmc : exists mc, iter cf' mc cur = Some a).
        { destruct Hcur as [->|Hc]; [by exists 0%nat|].
          destruct (T5 cur Hc) as [m Hm]. exists m. by apply iter_update_avoid. }
        destruct Hmc as [mc Hmc].
        assert (Hn' : iter cf' (S mc) nid = Some a)
          by (simpl; unfold cf' at 1; by rewrite lookup_insert_eq).
        destruct (decide (k = nid)) as [->|Hkn]; [eauto|].
        rewrite HcfN in Hk by done. destruct (T5 k Hk) as [m Hm].
        exact (iter_update_reach (came_from st) nid cur a (S mc) Hn' m k Hm). }
    case_bool_decide; eexists; (split; [reflexivity|]); split; try exact Hkeys; apply HT'.
    + intros x Hx. destruct (T2 x Hx) as [?|?]; [by left|right; by apply Hkeys].
    + intros x Hx. apply elem_of_cons in Hx as [->|Hx].
      * right. simpl. unfold cf'. rewrite lookup_insert_eq. by eexists.
      * destruct (T2 x Hx) as [?|?]; [by left|right; by apply Hkeys].
  - eexists. split; [reflexivity|]. split; [|done].
    apply TI_extend; [exact HT|]. intros k gk Hk.
    destruct (decide (k = nid)) as [->|Hkn].
    + rewrite lookup_insert_eq. unfold gn. by rewrite Hk.
    + by rewrite lookup_insert_ne.
Qed.

Lemma visit_all_TI b cur pc l : points g !! cur = Some pc ->
  (forall n, n ∈ l -> n ∈ connections pc) ->
  forall st, TI st -> (cur = a \/ is_Some (came_from st !! cur)) ->
  exists st', visit_all g b cur st l = Some st' /\ TI st'.
Proof.
  intros Hpc. induction l as [|n l IH]; simpl; intros Hl st HT Hcur; [eauto|].
  destruct (visit_TI b cur pc st n HT Hcur Hpc (Hl n ltac:(left))) as (st1 & Hv & HT1 & Hk).
  rewrite Hv. apply IH; [|done|].
  - intros m Hm. apply Hl. by right.
  - destruct Hcur as [?|Hc]; [by left|right; by apply Hk].
Qed.

Lemma start_TI b : TI (start_state g a b).
Proof.
  unfold start_state. split; [|split; [|split; [|split]]]; cbn [g_score came_from open_set].
  - apply lookup_singleton_eq.
  - intros x Hx. apply list_elem_of_singleton in Hx as ->. by left.
  - intros k v Hkv. by rewrite lookup_empty in Hkv.
  - intros k [->|Hk]; [|rewrite lookup_empty in Hk; by destruct Hk].
    exists []. split; [apply NoDup_singleton|]. split; [done|]. split; [done|].
    split; [intros y Hy; by apply not_elem_of_nil in Hy|]. split; [done|].
    apply lookup_singleton_eq.
  - intros k Hk. rewrite lookup_empty in Hk. by destruct Hk.
Qed.

Section Loop.
Variable ks : list Z.
Hypothesis Hnd : NoDup ks.
Hypothesis Hks : forall i, is_Some (points g !! i) -> i ∈ ks.

Lemma search_TI b fuel : forall st, TI st -> (measure ks st < fuel)%nat ->
  exists r, search pop fuel g a b st = Some r.
Proof.
  induction fuel as [|fuel IH]; cbn [search]; intros st HT Hm; [lia|].
  destruct (pop (open_set st)) as [[cur rest]|] eqn:Hp; [|eauto].
  destruct (pop_in pop _ cur rest Hpop Hp) as [Hcur Hrest].
  assert (Hlen : length (open_set st) = S (length rest)).
  { specialize (Hpop (open_set st)). rewrite Hp in Hpop. by rewrite Hpop. }
  pose proof HT as (T1 & T2 & T3 & T4 & T5).
  case_bool_decide as Heq.
  - assert (Hw : exists r, walk (S (size (came_from st))) a (came_from st) (pn_id cur) [] = Some r).
    { destruct (T2 cur Hcur) as [Hca|Hck].
      - rewrite Hca. exists []. simpl. by rewrite bool_decide_eq_true_2.
      - destruct (T5 _ Hck) as [m Hm'].
        assert (Hna : came_from st !! a = None).
        { destruct (came_from st !! a) as [v|] eqn:Hv; [|done].
          by destruct (T3 a v Hv) as [? _]. }
        pose proof (iter_short _ m _ a Hna Hm').
        apply (walk_reaches _ _ _ m); [done|lia]. }
    destruct Hw as [r Hr]. rewrite Hr. eauto.
  - set (st1 := mkSearchState rest (search_ids st ∖ {[pn_id cur]})
                              (came_from st) (g_score st) (f_score st)).
    assert (HT1 : TI st1).
    { split; [done|]. split; [intros x Hx; by apply T2, Hrest|]. done. }
    assert (Hm1 : (measure ks st1 < fuel)%nat) by (unfold measure in *; simpl; lia).
    destruct (points g !! pn_id cur) as [pc|] eqn:Hpc; [|by apply IH].
    destruct (visit_all_TI b (pn_id cur) pc (connections pc) Hpc (fun n Hn => Hn) st1 HT1
                (T2 cur Hcur)) as (st2 & Hv & HT2).
    rewrite Hv. apply IH; [done|].
    pose proof (visit_all_measure g ks Hnd Hks _ _ _ _ _ Hv). lia.
Qed.
End Loop.
End Total.

(** On a graph whose points are stored under their own ids and whose
    connections all name points of the graph, [find_path] neither panics
    nor loops, provided that no simple path can overflow the [u32] cost
    (with [D] a bound of [h_func] on every edge, [size * D <= u32::MAX]) and
    that the allocator serves the [with_capacity(cap_guess)] requests. *)
Theorem find_path_returns {F : Type} `{!F32 F} pop alloc (g : NavGraph F) (a b D : Z)
    (Hpop : pop_ok pop) (Hkey : keyed_by_id g) (Hcl : closed g)
    (HD : forall x y px, points g !! x = Some px -> y ∈ connections px -> h_func g x y <= D)
    (HN : Z.of_nat (size (points g)) * D <= u32_max)
    (Halloc : with_capacity alloc (cap_of g a b) = true) :
  exists fuel r, find_path pop alloc fuel g a b = Some r.
Proof.
  unfold find_path. unfold cap_of in Halloc.
  destruct (points g !! a) as [pa|] eqn:Ea; [|exists 0%nat, None; done].
  destruct (points g !! b) as [pb|] eqn:Eb; [|exists 0%nat, None; done].
  rewrite Halloc.
  set (ks := elements (dom (points g))).
  destruct (search_TI pop Hpop g a D ltac:(by rewrite Ea) Hkey Hcl HD HN ks) with
    (b := b) (fuel := S (measure ks (start_state g a b))) (st := start_state g a b)
    as [r Hr].
  - apply NoDup_elements.
  - intros i Hi. unfold ks. rewrite elem_of_elements. by apply elem_of_dom.
  - apply start_TI.
  - lia.
  - exists (S (measure ks (start_state g a b))). rewrite Hr.
    destruct r as [p|]; eauto.
Qed.

Lemma find_path_returns_witness :
  Z.of_nat (size (points diamond)) * 200 <= u32_max /\
  exists fuel r, find_path min_pop (alloc_upto 1000000) fuel diamond 1 4 = Some r.
Proof.
  assert (Hk : map_Forall (fun k p => id p = k) (points diamond))
    by (apply (bool_decide_eq_true_1 _); vm_compute; reflexivity).
  assert (Hc : map_Forall (fun _ p => Forall (fun c => is_Some (points diamond !! c)) (connections p))
                 (points diamond))
    by (apply (bool_decide_eq_true_1 _); vm_compute; reflexivity).
  assert (Hd : map_Forall (fun x p => Forall (fun y => h_func diamond x y <= 200) (connections p))
                 (points diamond))
    by (apply (bool_decide_eq_true_1 _); vm_compute; reflexivity).
  assert (HN : Z.of_nat (size (points diamond)) * 200 <= u32_max) by (vm_compute; discriminate).
  split; [exact HN|].
  apply (find_path_returns min_pop (alloc_upto 1000000) diamond 1 4 200 min_pop_ok).
  - intros k p Hp. exact (Hk k p Hp).
  - intros x px c Hx Hin. exact (proj1 (Forall_forall _ _) (Hc x px Hx) c Hin).
  - intros x y px Hx Hin. exact (proj1 (Forall_forall _ _) (Hd x px Hx) y Hin).
  - exact HN.
  - vm_compute. reflexivity.
Defined.
